(** * Y-net (src/lib/models/ynet.py): encoder, decoders and heatmap reductions

    The network is embedded at two levels.

    - The encoder, the decoders and the top-level constructor are embedded
      on tensor _shapes_: every layer is a descriptor (a [Conv2d] with its
      channel counts, a [MaxPool2d], a [ReLU]) and running a layer maps the
      shape of its input to the shape of its output, or raises the shape
      error the tensor library raises.  Weights are not part of the model:
      a layer descriptor fixes the shape of its weight tensor.
    - [softmax] and [softargmax_on_softmax_map] are embedded on values:
      a batch of images is a nested list of real numbers (floating point
      numbers are idealised as reals). *)

From Stdlib Require Import String.
From Stdlib Require Import Reals Lra.
From Stdlib Require Import List Arith Bool Lia.
Import ListNotations.

(** ** Exceptions *)

Inductive Error : Type :=
| IndexError                              (* list index out of range *)
| ConvNoOutputChannels                    (* conv weight with no output channel *)
| ConvChannelMismatch (expected got : nat) (* conv input has the wrong channel count *)
| ConvKernelTooLarge                      (* padded input smaller than the kernel *)
| PoolOutputTooSmall                      (* max-pool output would be empty *)
| InterpolateEmpty                        (* interpolate on an empty image *)
| CatSizeMismatch (stage : nat)           (* torch.cat in decoder iteration [stage] *)
| LoadError.                              (* torch.load failed *)

Inductive result (A : Type) : Type :=
| Ok (a : A)
| Err (e : Error).

Arguments Ok {A} a.
Arguments Err {A} e.

Definition bind {A B : Type} (r : result A) (k : A -> result B) : result B :=
  match r with
  | Ok a => k a
  | Err e => Err e
  end.

Notation "x <- r ;; k" := (bind r (fun x => k))
  (at level 61, r at next level, right associativity).

Definition is_ok {A : Type} (r : result A) : bool :=
  match r with Ok _ => true | Err _ => false end.

(** ** Shapes of 4D tensors (batch x channels x height x width) *)

Record Shape : Type := mkShape {
  dimN : nat;
  dimC : nat;
  dimH : nat;
  dimW : nat
}.

(** ** Layers *)

(** [nn.Conv2d(in_channels, out_channels, kernel_size, stride, padding)],
    square kernel. *)
Record Conv2d : Type := mkConv2d {
  in_channels : nat;
  out_channels : nat;
  kernel_size : nat;
  stride : nat;
  padding : nat
}.

Inductive Layer : Type :=
| Conv (c : Conv2d)
| ReLU
| MaxPool2d (kernel stride : nat).

(** [nn.Sequential] *)
Definition Sequential : Type := list Layer.

(** The 3x3 convolution used everywhere in the file: stride 1, padding 1. *)
Definition conv3x3 (cin cout : nat) : Conv2d := mkConv2d cin cout 3 1 1.

(** Output extent of a convolution along one axis. *)
Definition conv_out (c : Conv2d) (h : nat) : nat :=
  (h + 2 * padding c - kernel_size c) / stride c + 1.

(** Running a convolution.  The weight is looked at first: a layer built
    with no output channel is accepted by the constructor and refused
    here.  Then come the channel count of the input and the size of the
    padded image against the kernel. *)
Definition conv2d_forward (c : Conv2d) (x : Shape) : result Shape :=
  if out_channels c =? 0 then
    Err ConvNoOutputChannels
  else if negb (dimC x =? in_channels c) then
    Err (ConvChannelMismatch (in_channels c) (dimC x))
  else if (dimH x + 2 * padding c <? kernel_size c)
          || (dimW x + 2 * padding c <? kernel_size c) then
    Err ConvKernelTooLarge
  else
    Ok (mkShape (dimN x) (out_channels c) (conv_out c (dimH x)) (conv_out c (dimW x))).

(** Output extent of a max-pool (no padding, no dilation, floor mode). *)
Definition pool_out (kernel stride h : nat) : nat :=
  if h <? kernel then 0 else (h - kernel) / stride + 1.

Definition maxpool2d_forward (kernel stride : nat) (x : Shape) : result Shape :=
  let h := pool_out kernel stride (dimH x) in
  let w := pool_out kernel stride (dimW x) in
  if (h =? 0) || (w =? 0) then Err PoolOutputTooSmall
  else Ok (mkShape (dimN x) (dimC x) h w).

Definition layer_forward (l : Layer) (x : Shape) : result Shape :=
  match l with
  | Conv c => conv2d_forward c x
  | ReLU => Ok x
  | MaxPool2d k s => maxpool2d_forward k s x
  end.

Fixpoint sequential_forward (s : Sequential) (x : Shape) : result Shape :=
  match s with
  | [] => Ok x
  | l :: s' => y <- layer_forward l x ;; sequential_forward s' y
  end.

(** [F.interpolate(x, scale_factor=2, mode="bilinear", align_corners=False)] *)
Definition interpolate (scale_factor : nat) (x : Shape) : result Shape :=
  if (dimH x =? 0) || (dimW x =? 0) then Err InterpolateEmpty
  else Ok (mkShape (dimN x) (dimC x) (dimH x * scale_factor) (dimW x * scale_factor)).

(** [torch.cat([x, feature], dim=1)] inside iteration [i] of the decoder loop:
    every extent but the channel one has to agree. *)
Definition cat_dim1 (i : nat) (x feature : Shape) : result Shape :=
  if (dimN x =? dimN feature) && (dimH x =? dimH feature) && (dimW x =? dimW feature)
  then Ok (mkShape (dimN x) (dimC x + dimC feature) (dimH x) (dimW x))
  else Err (CatSizeMismatch i).

(** ** YNetEncoder *)

Module YNetEncoder.

Record t : Type := mk { stages : list Sequential }.

Definition first_block (cin c0 : nat) : Sequential :=
  [Conv (conv3x3 cin c0); ReLU].

Definition block (cin cout : nat) : Sequential :=
  [MaxPool2d 2 2; Conv (conv3x3 cin cout); ReLU; Conv (conv3x3 cout cout); ReLU].

Definition last_block : Sequential := [MaxPool2d 2 2].

(** [__init__(in_channels, channels)] *)
Definition init (in_chan : nat) (channels : list nat) : result t :=
  match channels with
  | [] => Err IndexError                      (* channels[0] *)
  | c0 :: _ =>
      Ok (mk ([first_block in_chan c0]
              ++ map (fun i => block (nth i channels 0) (nth (i + 1) channels 0))
                     (seq 0 (length channels - 1))
              ++ [last_block]))
  end.

(** The loop of [forward]: run the stages in turn, keep every output. *)
Fixpoint run_stages (ss : list Sequential) (x : Shape) : result (list Shape) :=
  match ss with
  | [] => Ok []
  | s :: ss' =>
      y <- sequential_forward s x ;;
      rest <- run_stages ss' y ;;
      Ok (y :: rest)
  end.

Definition forward (e : t) (x : Shape) : result (list Shape) :=
  run_stages (stages e) x.



End YNetEncoder.

(** ** YNetDecoder *)

Module YNetDecoder.

Record t : Type := mk {
  center : Sequential;
  upsample_conv : list Conv2d;
  decoder : list Sequential;
  predictor : Conv2d
}.

Definition center_block (c : nat) : Sequential :=
  [Conv (conv3x3 c (c * 2)); ReLU; Conv (conv3x3 (c * 2) (c * 2)); ReLU].

Definition fusion_block (cin cout : nat) : Sequential :=
  [Conv (conv3x3 cin cout); ReLU; Conv (conv3x3 cout cout); ReLU].

(** Python truthiness of the [traj] argument: [False] is [None], an
    integer is [Some w], and [0] is falsy. *)
Definition truthy (traj : option nat) : bool :=
  match traj with
  | Some w => negb (w =? 0)
  | None => false
  end.

Definition traj_width (traj : option nat) : nat :=
  match traj with Some w => w | None => 0 end.

(** [__init__(encoder_channels, decoder_channels, output_len, traj)] *)
Definition init (encoder_channels decoder_channels : list nat)
           (output_len : nat) (traj : option nat) : result t :=
  let encoder_channels :=
    if truthy traj
    then map (fun channel => channel + traj_width traj) encoder_channels
    else encoder_channels in
  let encoder_channels := rev encoder_channels in
  match encoder_channels with
  | [] => Err IndexError                       (* encoder_channels[0] *)
  | center_channels :: _ =>
      let upsample_channels_in :=
        [center_channels * 2] ++ removelast decoder_channels in
      let upsample_channels_out :=
        map (fun num_channel => num_channel / 2) upsample_channels_in in
      let ups :=
        map (fun io => conv3x3 (fst io) (snd io))
            (combine upsample_channels_in upsample_channels_out) in
      let in_chans :=
        map (fun ed => fst ed + snd ed)
            (combine encoder_channels upsample_channels_out) in
      let dec :=
        map (fun io => fusion_block (fst io) (snd io))
            (combine in_chans decoder_channels) in
      match decoder_channels with
      | [] => Err IndexError                   (* decoder_channels[-1] *)
      | _ :: _ =>
          Ok (mk (center_block center_channels) ups dec
                 (mkConv2d (last decoder_channels 0) output_len 1 1 0))
      end
  end.

(** The loop of [forward] over
    [zip(features[1:], self.decoder, self.upsample_conv)]; [i] is the
    index [enumerate] hands out.  The skip features read so far are
    accumulated next to the running tensor. *)
Fixpoint run_stages (i : nat) (x : Shape) (features : list Shape)
         (modules : list Sequential) (ups : list Conv2d)
  : result (Shape * list Shape) :=
  match features, modules, ups with
  | feature :: features', module :: modules', up :: ups' =>
      x1 <- interpolate 2 x ;;
      x2 <- conv2d_forward up x1 ;;
      x3 <- cat_dim1 i x2 feature ;;
      x4 <- sequential_forward module x3 ;;
      r <- run_stages (S i) x4 features' modules' ups' ;;
      Ok (fst r, feature :: snd r)
  | _, _, _ => Ok (x, [])
  end.

(** [forward], returning the output together with the pyramid entries
    that were concatenated as skip connections, in the order read. *)
Definition forward_skips (d : t) (features : list Shape)
  : result (Shape * list Shape) :=
  match rev features with
  | [] => Err IndexError                       (* features[0] *)
  | center_feature :: rest =>
      x <- sequential_forward (center d) center_feature ;;
      r <- run_stages 0 x rest (decoder d) (upsample_conv d) ;;
      y <- conv2d_forward (predictor d) (fst r) ;;
      Ok (y, snd r)
  end.

Definition forward (d : t) (features : list Shape) : result Shape :=
  r <- forward_skips d features ;; Ok (fst r).

End YNetDecoder.

(** ** YNetTorch *)

(** What [torch.load] hands back: a pretrained segmentation network, opaque
    but for its [segmentation_head], which the constructor may replace. *)
Inductive SegmentationHead : Type := PretrainedHead | IdentityHead.

Inductive Backbone : Type :=
| Identity                                     (* nn.Identity() *)
| Segmenter (fp : string) (segmentation_head : SegmentationHead).

Module YNetTorch.

Record t : Type := mk {
  semantic_segmentation : Backbone;
  encoder : YNetEncoder.t;
  goal_decoder : YNetDecoder.t;
  traj_decoder : YNetDecoder.t
}.

Section Init.

(** The storage [torch.load] reads: [torch_load fp] tells whether a
    model can be loaded from [fp]. *)
Variable torch_load : string -> bool.

(** [__init__]; the pair computed first is the backbone together with
    the value of the local variable [semantic_classes] after the
    [if].  The attribute [softargmax_] is built by lib/models/softargmax.py,
    outside these sources, and takes no part in what follows. *)
Definition init (obs_len pred_len : nat) (segmentation_model_fp : option string)
           (use_features_only : bool) (semantic_classes : nat)
           (encoder_channels decoder_channels : list nat) (waypoints : nat)
  : result t :=
  bs <- match segmentation_model_fp with
        | Some fp =>
            if torch_load fp then
              if use_features_only
              then Ok (Segmenter fp IdentityHead, 16)
              else Ok (Segmenter fp PretrainedHead, semantic_classes)
            else Err LoadError
        | None => Ok (Identity, semantic_classes)
        end ;;
  enc <- YNetEncoder.init (snd bs + obs_len) encoder_channels ;;
  goal <- YNetDecoder.init encoder_channels decoder_channels pred_len None ;;
  traj <- YNetDecoder.init encoder_channels decoder_channels pred_len
                           (Some waypoints) ;;
  Ok (mk (fst bs) enc goal traj).

End Init.


Definition pred_traj (m : t) (features : list Shape) : result Shape :=
  YNetDecoder.forward (traj_decoder m) features.

Definition pred_features (m : t) (x : Shape) : result (list Shape) :=
  YNetEncoder.forward (encoder m) x.


(** Input channel count of the encoder: the [in_channels] of the
    convolution that opens its first stage. *)
Definition encoder_in_channels (m : t) : option nat :=
  match YNetEncoder.stages (encoder m) with
  | (Conv c :: _) :: _ => Some (in_channels c)
  | _ => None
  end.

End YNetTorch.

(** [get_ynet(model_path, obs_len, pred_len)]: [model_path] is not used;
    [waypoints] is [len([11])]. *)
Definition default_encoder_channels : list nat := [32; 32; 64; 64; 64].
Definition default_decoder_channels : list nat := [64; 64; 64; 32; 32].

Definition get_ynet (torch_load : string -> bool) (obs_len pred_len : nat)
  : result YNetTorch.t :=
  YNetTorch.init torch_load obs_len pred_len None false 0
                 default_encoder_channels default_decoder_channels
                 (length [11]).

(** ** Heatmap reductions, on values *)

Open Scope R_scope.

(** A batch of images, NxCxHxW, and what [x.flatten(2)] makes of it. *)
Definition Tensor4 : Type := list (list (list (list R))).
Definition Tensor3 : Type := list (list (list R)).

(** [x.size()], read off the first element along every axis. *)
Definition size4 (x : Tensor4) : nat * nat * nat * nat :=
  (length x, length (hd [] x), length (hd [] (hd [] x)),
   length (hd [] (hd [] (hd [] x)))).

Definition size3 (x : Tensor3) : list nat :=
  [length x; length (hd [] x); length (hd [] (hd [] x))].

(** [x.flatten(2)]; [softmax] obtains the same with [x.view] over the two
    leading extents and [-1]. *)
Definition flatten2 (x : Tensor4) : Tensor3 :=
  map (map (@concat R)) x.

Definition sum_list (v : list R) : R := fold_right Rplus 0 v.

(** [nn.Softmax] along an axis holding [v]. *)
Definition softmax_1d (v : list R) : list R :=
  map (fun a => exp a / sum_list (map exp v)) v.

(** Cut a flat list into [h] rows of [w] entries. *)
Fixpoint rows_of (h w : nat) (v : list R) : list (list R) :=
  match h with
  | O => []
  | S h' => firstn w v :: rows_of h' w (skipn w v)
  end.

(** [y.view_as(x)] for a flattened [y]. *)
Definition view_as (y : Tensor3) (x : Tensor4) : Tensor4 :=
  let '(_, _, h, w) := size4 x in
  map (map (rows_of h w)) y.

(** [YNetTorch.softmax] *)
Definition softmax (x : Tensor4) : Tensor4 :=
  view_as (map (map softmax_1d) (flatten2 x)) x.

(** Modelled from the spec: [create_meshgrid] of lib/models/softargmax.py,
    which is not part of the sources at hand.  With unnormalized
    coordinates the grid has the shape HxW of the image and every cell
    holds its own index: [pos_y] the row index, [pos_x] the column index.
    The pair is returned as the caller unpacks it, [(pos_y, pos_x)]. *)
Definition create_meshgrid (x : Tensor4) : list (list R) * list (list R) :=
  let '(_, _, h, w) := size4 x in
  (map (fun i => map (fun _ => INR i) (seq 0 w)) (seq 0 h),
   map (fun _ => map (fun j => INR j) (seq 0 w)) (seq 0 h)).

(** [pos * x]: the flat grid is broadcast against the last axis. *)
Definition mul_last (pos : list R) (x : Tensor3) : Tensor3 :=
  map (map (fun v => map (fun pv => fst pv * snd pv) (combine pos v))) x.

(** [torch.sum(x, dim=-1, keepdim=True)] *)
Definition sum_last_keepdim (x : Tensor3) : Tensor3 :=
  map (map (fun v => [sum_list v])) x.

(** [torch.cat([a, b], dim=-1)] *)
Definition cat_last (a b : Tensor3) : Tensor3 :=
  map (fun ab => map (fun uv => fst uv ++ snd uv) (combine (fst ab) (snd ab)))
      (combine a b).

(** [YNetTorch.softargmax_on_softmax_map] *)
Definition softargmax_on_softmax_map (x : Tensor4) : Tensor3 :=
  let '(pos_y, pos_x) := create_meshgrid x in
  let pos_x := concat pos_x in
  let pos_y := concat pos_y in
  let x := flatten2 x in
  let estimated_x := sum_last_keepdim (mul_last pos_x x) in
  let estimated_y := sum_last_keepdim (mul_last pos_y x) in
  cat_last estimated_x estimated_y.

(** A well-formed NxCxHxW batch. *)
Definition has_shape (x : Tensor4) (n c h w : nat) : Prop :=
  length x = n /\
  Forall (fun img =>
    length img = c /\
    Forall (fun ch =>
      length ch = h /\ Forall (fun row => length row = w) ch) img) x.

(** Entry [(b, c, i, j)] of a batch. *)
Definition at4 (x : Tensor4) (b c i j : nat) : R :=
  nth j (nth i (nth c (nth b x []) []) []) 0.


Close Scope R_scope.

(** * Auxiliary definitions for the statements and their proofs *)

(** The stages the [for] loop of the constructor appends, by recursion
    on the channel list. *)
Fixpoint blocks_of (channels : list nat) : list Sequential :=
  match channels with
  | c :: (c' :: _) as rest => YNetEncoder.block c c' :: blocks_of rest
  | _ => []
  end.

(** The pyramid below a tensor of [c] channels and extent [h] x [w],
    when [rest] are the channel counts still to come. *)
Fixpoint below (n c h w : nat) (rest : list nat) : list Shape :=
  match rest with
  | [] => [mkShape n c (h / 2) (w / 2)]
  | c' :: rest' =>
      mkShape n c' (h / 2) (w / 2) :: below n c' (h / 2) (w / 2) rest'
  end.

(** The upsample convolutions and fusion blocks of the constructor, stage
    by stage: [c] is the channel count the running tensor enters the
    stage with, [es] the (reversed) encoder channels and [ds] the decoder
    channels from this stage on. *)
Fixpoint build (c : nat) (es ds : list nat) : list (Conv2d * Sequential) :=
  match es, ds with
  | e :: es', d :: ds' =>
      (conv3x3 c (c / 2), YNetDecoder.fusion_block (e + c / 2) d) :: build d es' ds'
  | _, _ => []
  end.

Definition ups_in (c : nat) (ds : list nat) : list nat := [c] ++ removelast ds.
Definition ups_out (c : nat) (ds : list nat) : list nat :=
  map (fun num_channel => num_channel / 2) (ups_in c ds).

(** The channel list the constructor works with. *)
Definition adjusted (encoder_channels : list nat) (traj : option nat) : list nat :=
  if YNetDecoder.truthy traj
  then map (fun channel => channel + YNetDecoder.traj_width traj) encoder_channels
  else encoder_channels.



(** Whether the running tensor [x], upsampled by 2, can be concatenated
    with the skip feature [f]. *)
Definition fits (x f : Shape) : bool :=
  (dimN x =? dimN f) && (dimH x * 2 =? dimH f) && (dimW x * 2 =? dimW f).

(** Index of the first skip feature of [fs], read after [x], that the
    upsampled running tensor does not fit; past a concatenation the
    running tensor has the extents of the feature just read. *)
Fixpoint first_mismatch (x : Shape) (fs : list Shape) : option nat :=
  match fs with
  | [] => None
  | f :: fs' =>
      if fits x f then option_map S (first_mismatch f fs') else Some 0
  end.

(** Channel counts of the pyramid an encoder over [channels] returns:
    one entry per channel count, and the pooled copy of the last one. *)
Definition pyramid_channels (channels : list nat) : list nat :=
  channels ++ [last channels 0].

(** A pyramid, finest entry first, in which every entry has the batch
    extent and twice the height and width of the next one, down to a
    non-empty bottleneck. *)
Fixpoint halves_down (features : list Shape) : Prop :=
  match features with
  | [] => False
  | f :: rest =>
      match rest with
      | [] => 1 <= dimH f /\ 1 <= dimW f
      | g :: _ =>
          dimN g = dimN f /\ dimH g * 2 = dimH f /\ dimW g * 2 = dimW f
          /\ halves_down rest
      end
  end.

(** A pyramid of matching shapes for a decoder whose (conditioning
    adjusted) encoder channel list is [channels]. *)
Definition matching_pyramid (channels : list nat) (features : list Shape) : Prop :=
  map dimC features = pyramid_channels channels /\ halves_down features.

(** A valid channel configuration: a non-empty list of positive counts. *)
Definition valid_channels (channels : list nat) : Prop :=
  channels <> [] /\ Forall (fun c => 0 < c) channels.

(** Decoder channels that can be halved: every decoder channel but the
    last is the input of an upsample convolution, whose output has
    [num_channel // 2] channels; this says that none of those is 0. *)
Definition halvable (decoder_channels : list nat) : Prop :=
  Forall (fun d => 2 <= d) (removelast decoder_channels).



(** Stage [i] of the decoder, after [n] poolings of an extent [h], meets
    the extent pooled [n - i] times, upsampled by 2, with the extent
    pooled once less; this says that the two agree. *)
Definition agrees (h n i : nat) : Prop :=
  h / 2 ^ (n - i) * 2 = h / 2 ^ (n - S i).

(** Channel [c] of image [b] of a batch: its rows. *)
Definition slice (x : Tensor4) (b c : nat) : list (list R) :=
  nth c (nth b x []) [].

(** Sum of the products of a flat grid with a flat channel. *)
Definition dot (pos v : list R) : R :=
  sum_list (map (fun pv => (fst pv * snd pv)%R) (combine pos v)).

(** A batch of images of [h] x [w] pixels, with at least one pixel. *)
Definition image_batch (x : Tensor4) (n c h w : nat) : Prop :=
  has_shape x n c h w /\ 0 < h /\ 0 < w.

(** A pyramid entry with [w] conditioning channels appended to it (the
    heatmaps the caller concatenates before the trajectory decoder). *)
Definition with_conditioning (w : nat) (f : Shape) : Shape :=
  mkShape (dimN f) (dimC f + w) (dimH f) (dimW f).

(** The sum over an [h] x [w] grid of the products of a coefficient
    [pa i j] with a value [g i j]. *)
Definition grid_sum (pa g : nat -> nat -> R) (h w : nat) : R :=
  sum_list (map (fun i => sum_list (map (fun j => (pa i j * g i j)%R) (seq 0 w)))
                (seq 0 h)).

(** The pair [softargmax_on_softmax_map] returns for channel [k] of
    image [b]. *)
Definition coordinates (x : Tensor4) (b k : nat) : list R :=
  nth k (nth b (softargmax_on_softmax_map x) []) [].
(** * Properties *)

(** ** Lists *)

Lemma last_default {A : Type} (l : list A) (a d d' : A) :
  last (a :: l) d = last (a :: l) d'.
Proof.
  revert a. induction l as [|b l IH]; intros a; [reflexivity|].
  change (last (b :: l) d = last (b :: l) d'). apply IH.
Qed.

Lemma last_cons {A : Type} (l : list A) (a d : A) :
  last (a :: l) d = last l a.
Proof.
  destruct l as [|b l]; [reflexivity|].
  change (last (b :: l) d = last (b :: l) a). apply last_default.
Qed.

Lemma last_rev {A : Type} (l : list A) (d : A) : last (rev l) d = hd d l.
Proof.
  destruct l as [|a l]; [reflexivity|]. simpl. apply last_last.
Qed.

(** ** Layers *)

Lemma bind_ok {A B : Type} (r : result A) (k : A -> result B) (b : B) :
  bind r k = Ok b -> exists a, r = Ok a /\ k a = Ok b.
Proof.
  destruct r as [a|e]; simpl; intros H; [exists a; auto | discriminate].
Qed.

Lemma pool_out_half (h : nat) : pool_out 2 2 h = h / 2.
Proof.
  unfold pool_out. destruct (Nat.ltb_spec h 2) as [Hlt|Hge].
  - symmetry. apply Nat.div_small. exact Hlt.
  - replace h with (h - 2 + 1 * 2) at 2 by lia.
    rewrite Nat.div_add by discriminate. reflexivity.
Qed.

Lemma half_pos (h : nat) : 1 <= h / 2 <-> 2 <= h.
Proof.
  split; intros H.
  - destruct (Nat.lt_ge_cases h 2) as [Hlt|Hge]; [|exact Hge].
    rewrite (Nat.div_small h 2 Hlt) in H. lia.
  - apply Nat.div_le_lower_bound; lia.
Qed.

Lemma conv_out_3x3 (cin cout h : nat) :
  1 <= h -> conv_out (conv3x3 cin cout) h = h.
Proof.
  intros H. unfold conv_out, conv3x3.
  cbn [kernel_size stride padding]. rewrite Nat.div_1_r. lia.
Qed.

Lemma conv_out_1x1 (cin cout h : nat) :
  1 <= h -> conv_out (mkConv2d cin cout 1 1 0) h = h.
Proof.
  intros H. unfold conv_out.
  cbn [kernel_size stride padding]. rewrite Nat.div_1_r. lia.
Qed.

Lemma conv3x3_forward (cin cout : nat) (x : Shape) :
  0 < cout ->
  dimC x = cin -> 1 <= dimH x -> 1 <= dimW x ->
  conv2d_forward (conv3x3 cin cout) x
  = Ok (mkShape (dimN x) cout (dimH x) (dimW x)).
Proof.
  intros Hout HC HH HW. unfold conv2d_forward.
  rewrite !conv_out_3x3 by assumption.
  unfold conv3x3. cbn [in_channels out_channels kernel_size padding].
  destruct (Nat.eqb_spec cout 0); [lia|].
  rewrite HC, Nat.eqb_refl. cbn [negb].
  destruct (Nat.ltb_spec (dimH x + 2 * 1) 3); [lia|].
  destruct (Nat.ltb_spec (dimW x + 2 * 1) 3); [lia|]. reflexivity.
Qed.

Lemma conv1x1_forward (cin cout : nat) (x : Shape) :
  0 < cout ->
  dimC x = cin -> 1 <= dimH x -> 1 <= dimW x ->
  conv2d_forward (mkConv2d cin cout 1 1 0) x
  = Ok (mkShape (dimN x) cout (dimH x) (dimW x)).
Proof.
  intros Hout HC HH HW. unfold conv2d_forward.
  rewrite !conv_out_1x1 by assumption.
  cbn [in_channels out_channels kernel_size padding].
  destruct (Nat.eqb_spec cout 0); [lia|].
  rewrite HC, Nat.eqb_refl. cbn [negb].
  destruct (Nat.ltb_spec (dimH x + 2 * 0) 1); [lia|].
  destruct (Nat.ltb_spec (dimW x + 2 * 0) 1); [lia|]. reflexivity.
Qed.

Lemma maxpool_forward_ok (x : Shape) :
  2 <= dimH x -> 2 <= dimW x ->
  maxpool2d_forward 2 2 x
  = Ok (mkShape (dimN x) (dimC x) (dimH x / 2) (dimW x / 2)).
Proof.
  intros HH HW. unfold maxpool2d_forward. rewrite !pool_out_half.
  apply half_pos in HH. apply half_pos in HW.
  destruct (Nat.eqb_spec (dimH x / 2) 0); [lia|].
  destruct (Nat.eqb_spec (dimW x / 2) 0); [lia|]. reflexivity.
Qed.

Lemma maxpool_forward_small (x : Shape) :
  dimH x < 2 \/ dimW x < 2 ->
  maxpool2d_forward 2 2 x = Err PoolOutputTooSmall.
Proof.
  intros H. unfold maxpool2d_forward. rewrite !pool_out_half.
  destruct H as [H|H]; rewrite (Nat.div_small _ 2 H), Nat.eqb_refl;
    [|rewrite orb_true_r]; reflexivity.
Qed.

(** ** The encoder *)

Module EncoderFacts.
Import YNetEncoder.

Lemma first_block_forward (cin c0 : nat) (x : Shape) :
  0 < c0 ->
  dimC x = cin -> 1 <= dimH x -> 1 <= dimW x ->
  sequential_forward (first_block cin c0) x
  = Ok (mkShape (dimN x) c0 (dimH x) (dimW x)).
Proof.
  intros Hout HC HH HW. unfold first_block. simpl.
  rewrite conv3x3_forward by assumption. reflexivity.
Qed.

Lemma block_forward_ok (cin cout : nat) (x : Shape) :
  0 < cout ->
  dimC x = cin -> 2 <= dimH x -> 2 <= dimW x ->
  sequential_forward (block cin cout) x
  = Ok (mkShape (dimN x) cout (dimH x / 2) (dimW x / 2)).
Proof.
  intros Hout HC HH HW. unfold block. simpl.
  rewrite maxpool_forward_ok by assumption. simpl.
  pose proof (proj2 (half_pos (dimH x)) HH).
  pose proof (proj2 (half_pos (dimW x)) HW).
  rewrite conv3x3_forward by (simpl; assumption). simpl.
  rewrite conv3x3_forward by (simpl; auto). reflexivity.
Qed.

Lemma block_forward_small (cin cout : nat) (x : Shape) :
  dimH x < 2 \/ dimW x < 2 ->
  sequential_forward (block cin cout) x = Err PoolOutputTooSmall.
Proof.
  intros H. unfold block. simpl.
  rewrite maxpool_forward_small by assumption. reflexivity.
Qed.

Lemma loop_blocks_cons (rest : list nat) :
  forall c : nat,
    map (fun i => block (nth i (c :: rest) 0) (nth (i + 1) (c :: rest) 0))
        (seq 0 (length rest))
    = blocks_of (c :: rest).
Proof.
  induction rest as [|c' rest IH]; intros c; [reflexivity|].
  change (blocks_of (c :: c' :: rest))
    with (block c c' :: blocks_of (c' :: rest)).
  cbn [length seq map]. f_equal.
  rewrite <- (IH c'), <- seq_shift, map_map.
  apply map_ext. intros i. reflexivity.
Qed.

Lemma loop_blocks (channels : list nat) :
  map (fun i => block (nth i channels 0) (nth (i + 1) channels 0))
      (seq 0 (length channels - 1))
  = blocks_of channels.
Proof.
  destruct channels as [|c rest]; [reflexivity|].
  cbn [length]. rewrite Nat.sub_succ, Nat.sub_0_r.
  apply loop_blocks_cons.
Qed.

Lemma init_stages (cin c0 : nat) (rest : list nat) :
  init cin (c0 :: rest)
  = Ok (mk (first_block cin c0 :: blocks_of (c0 :: rest) ++ [last_block])).
Proof.
  unfold init. rewrite loop_blocks. reflexivity.
Qed.

Lemma length_below (n c h w : nat) (rest : list nat) :
  length (below n c h w rest) = S (length rest).
Proof.
  revert c h w. induction rest as [|c' rest IH]; intros c h w; simpl;
    [reflexivity | rewrite IH; reflexivity].
Qed.

Lemma pow_le_half (k h : nat) : 2 ^ S k <= h <-> 2 ^ k <= h / 2.
Proof.
  rewrite Nat.pow_succ_r'. split; intros H.
  - apply Nat.div_le_lower_bound; lia.
  - pose proof (Nat.div_mod_eq h 2). lia.
Qed.

(** The loop of [forward] on the stages after the first one: either the
    input can be halved once per stage, or a max-pool raises. *)
Lemma run_blocks (rest : list nat) :
  forall (c : nat) (x : Shape),
    Forall (fun c' => 0 < c') rest ->
    dimC x = c ->
    run_stages (blocks_of (c :: rest) ++ [last_block]) x
    = if (2 ^ S (length rest) <=? dimH x) && (2 ^ S (length rest) <=? dimW x)
      then Ok (below (dimN x) c (dimH x) (dimW x) rest)
      else Err PoolOutputTooSmall.
Proof.
  induction rest as [|c' rest IH]; intros c x Hpos HC.
  - simpl blocks_of. simpl app. cbn [run_stages last_block sequential_forward layer_forward].
    change (2 ^ S (length (@nil nat))) with 2.
    destruct (Nat.leb_spec 2 (dimH x)) as [HH|HH];
      destruct (Nat.leb_spec 2 (dimW x)) as [HW|HW]; simpl andb.
    + rewrite maxpool_forward_ok by assumption. simpl. rewrite HC. reflexivity.
    + rewrite maxpool_forward_small by (right; assumption). reflexivity.
    + rewrite maxpool_forward_small by (left; assumption). reflexivity.
    + rewrite maxpool_forward_small by (left; assumption). reflexivity.
  - change (blocks_of (c :: c' :: rest))
      with (block c c' :: blocks_of (c' :: rest)).
    cbn [app run_stages]. simpl length.
    pose proof (Forall_inv Hpos) as Hc'. cbn beta in Hc'.
    pose proof (Forall_inv_tail Hpos) as Hrest.
    destruct (Nat.lt_ge_cases (dimH x) 2) as [HH|HH];
      [|destruct (Nat.lt_ge_cases (dimW x) 2) as [HW|HW]].
    + rewrite block_forward_small by (left; assumption). simpl bind.
      assert (2 <= 2 ^ S (S (length rest)))
        by (rewrite Nat.pow_succ_r'; pose proof (Nat.pow_nonzero 2 (S (length rest))); lia).
      destruct (Nat.leb_spec (2 ^ S (S (length rest))) (dimH x)); [lia|reflexivity].
    + rewrite block_forward_small by (right; assumption). simpl bind.
      assert (2 <= 2 ^ S (S (length rest)))
        by (rewrite Nat.pow_succ_r'; pose proof (Nat.pow_nonzero 2 (S (length rest))); lia).
      destruct (Nat.leb_spec (2 ^ S (S (length rest))) (dimW x));
        [lia|rewrite andb_false_r; reflexivity].
    + rewrite block_forward_ok by assumption. cbn [bind].
      rewrite IH by (try assumption; reflexivity). cbn [dimH dimW dimN].
      destruct (Nat.leb_spec (2 ^ S (length rest)) (dimH x / 2)) as [H1|H1];
        destruct (Nat.leb_spec (2 ^ S (S (length rest))) (dimH x)) as [H2|H2];
        try (apply pow_le_half in H1; lia);
        try (apply pow_le_half in H2; lia);
        destruct (Nat.leb_spec (2 ^ S (length rest)) (dimW x / 2)) as [H3|H3];
        destruct (Nat.leb_spec (2 ^ S (S (length rest))) (dimW x)) as [H4|H4];
        try (apply pow_le_half in H3; lia);
        try (apply pow_le_half in H4; lia);
        reflexivity.
Qed.


Lemma first_block_small (cin c0 : nat) (x : Shape) :
  0 < c0 ->
  dimC x = cin -> dimH x = 0 \/ dimW x = 0 ->
  sequential_forward (first_block cin c0) x = Err ConvKernelTooLarge.
Proof.
  intros Hout HC H0. unfold first_block. cbn [sequential_forward layer_forward].
  unfold conv2d_forward, conv3x3. cbn [in_channels out_channels kernel_size padding].
  destruct (Nat.eqb_spec c0 0); [lia|].
  rewrite HC, Nat.eqb_refl. cbn [negb].
  destruct H0 as [H0|H0]; rewrite H0; cbn [Nat.add Nat.mul Nat.ltb Nat.leb orb];
    [|rewrite orb_true_r]; reflexivity.
Qed.

Lemma run_stages_cons (s : Sequential) (ss : list Sequential) (x : Shape) :
  run_stages (s :: ss) x
  = (y <- sequential_forward s x ;;
     rest <- run_stages ss y ;;
     Ok (y :: rest)).
Proof. reflexivity. Qed.

(** [forward] of a freshly built encoder, in full. *)
Lemma encoder_forward_built (cin c0 : nat) (rest : list nat) (e : t) (x : Shape) :
  Forall (fun c => 0 < c) (c0 :: rest) ->
  init cin (c0 :: rest) = Ok e ->
  dimC x = cin ->
  let n := S (length rest) in
  (2 ^ n <= dimH x -> 2 ^ n <= dimW x ->
   forward e x
   = Ok (mkShape (dimN x) c0 (dimH x) (dimW x)
         :: below (dimN x) c0 (dimH x) (dimW x) rest))
  /\ (dimH x < 2 ^ n \/ dimW x < 2 ^ n ->
      forward e x = Err ConvKernelTooLarge
      \/ forward e x = Err PoolOutputTooSmall).
Proof.
  intros Hpos Hinit HC n. rewrite init_stages in Hinit.
  assert (He : e = mk (first_block cin c0 :: blocks_of (c0 :: rest) ++ [last_block]))
    by congruence.
  subst e. clear Hinit.
  pose proof (Forall_inv Hpos) as Hc0. cbn beta in Hc0.
  pose proof (Forall_inv_tail Hpos) as Hrest.
  unfold forward. cbn [stages]. rewrite run_stages_cons.
  assert (Hp : 1 <= 2 ^ n) by (pose proof (Nat.pow_nonzero 2 n); lia).
  split.
  - intros HH HW.
    rewrite first_block_forward by (try assumption; lia). cbn [bind].
    rewrite run_blocks by (try assumption; reflexivity). cbn [dimN dimH dimW].
    fold n.
    destruct (Nat.leb_spec (2 ^ n) (dimH x)); [|lia].
    destruct (Nat.leb_spec (2 ^ n) (dimW x)); [|lia].
    reflexivity.
  - intros Hsmall.
    destruct (Nat.eq_dec (dimH x) 0) as [H0|H0];
      [left; rewrite first_block_small by auto; reflexivity|].
    destruct (Nat.eq_dec (dimW x) 0) as [W0|W0];
      [left; rewrite first_block_small by auto; reflexivity|].
    right. rewrite first_block_forward by (try assumption; lia). cbn [bind].
    rewrite run_blocks by (try assumption; reflexivity). cbn [dimN dimH dimW]. fold n.
    destruct Hsmall as [Hs|Hs].
    + destruct (Nat.leb_spec (2 ^ n) (dimH x)); [lia|]. reflexivity.
    + destruct (Nat.leb_spec (2 ^ n) (dimW x)); [lia|].
      rewrite andb_false_r. reflexivity.
Qed.

End EncoderFacts.

(** ** The decoder *)

Module DecoderFacts.
Import YNetDecoder.

Lemma center_block_forward (c : nat) (x : Shape) :
  0 < c ->
  dimC x = c -> 1 <= dimH x -> 1 <= dimW x ->
  sequential_forward (center_block c) x
  = Ok (mkShape (dimN x) (c * 2) (dimH x) (dimW x)).
Proof.
  intros Hc HC HH HW. unfold center_block. simpl.
  assert (Hout : 0 < c * 2) by lia.
  rewrite conv3x3_forward by assumption. simpl.
  rewrite conv3x3_forward by (simpl; auto). reflexivity.
Qed.

Lemma fusion_block_forward (cin cout : nat) (x : Shape) :
  0 < cout ->
  dimC x = cin -> 1 <= dimH x -> 1 <= dimW x ->
  sequential_forward (fusion_block cin cout) x
  = Ok (mkShape (dimN x) cout (dimH x) (dimW x)).
Proof.
  intros Hout HC HH HW. unfold fusion_block. simpl.
  rewrite conv3x3_forward by assumption. simpl.
  rewrite conv3x3_forward by (simpl; auto). reflexivity.
Qed.

(** The channel lists under the conditions the convolutions need. *)
Lemma adjusted_positive (enc : list nat) (traj : option nat) :
  Forall (fun c => 0 < c) enc ->
  Forall (fun c => 0 < c) (adjusted enc traj).
Proof.
  intros H. unfold adjusted. destruct (truthy traj); [|exact H].
  apply Forall_map. revert H. apply Forall_impl. intros c Hc. lia.
Qed.

Lemma halvable_from (c : nat) (ds : list nat) :
  2 <= c -> halvable ds ->
  Forall (fun d => 2 <= d) (removelast (c :: ds)).
Proof.
  intros Hc Hds. destruct ds as [|d ds]; [constructor|].
  change (removelast (c :: d :: ds)) with (c :: removelast (d :: ds)).
  constructor; assumption.
Qed.

Lemma Forall_firstn {A : Type} (P : A -> Prop) (n : nat) (l : list A) :
  Forall P l -> Forall P (firstn n l).
Proof.
  intros H. rewrite <- (firstn_skipn n l) in H.
  apply Forall_app in H. tauto.
Qed.

Lemma Forall_skipn {A : Type} (P : A -> Prop) (n : nat) (l : list A) :
  Forall P l -> Forall P (skipn n l).
Proof.
  intros H. rewrite <- (firstn_skipn n l) in H.
  apply Forall_app in H. tauto.
Qed.

Lemma Forall_removelast {A : Type} (P : A -> Prop) (l : list A) :
  Forall P l -> Forall P (removelast l).
Proof.
  intros H. rewrite removelast_firstn_len. apply Forall_firstn. exact H.
Qed.

Lemma halvable_firstn (n : nat) (ds : list nat) :
  halvable ds -> halvable (firstn n ds).
Proof.
  unfold halvable. intros H.
  rewrite removelast_firstn_len, length_firstn, firstn_firstn.
  rewrite removelast_firstn_len in H.
  set (k := Nat.min _ n).
  assert (Hk : k <= pred (length ds)) by (unfold k; lia).
  replace (firstn k ds) with (firstn k (firstn (pred (length ds)) ds)).
  - apply Forall_firstn. exact H.
  - rewrite firstn_firstn. f_equal. lia.
Qed.

Lemma ups_in_cons (c d d' : nat) (ds : list nat) :
  ups_in c (d :: d' :: ds) = c :: ups_in d (d' :: ds).
Proof. reflexivity. Qed.

Lemma upsample_build (ds : list nat) :
  forall (es : list nat) (c : nat),
    length es = length ds ->
    map (fun io => conv3x3 (fst io) (snd io)) (combine (ups_in c ds) (ups_out c ds))
    = match ds with [] => [conv3x3 c (c / 2)] | _ => map fst (build c es ds) end.
Proof.
  induction ds as [|d ds IH]; intros es c Hlen; [reflexivity|].
  destruct es as [|e es]; [discriminate|]. injection Hlen as Hlen.
  destruct ds as [|d' ds].
  - destruct es; [reflexivity | discriminate].
  - unfold ups_out. rewrite ups_in_cons. cbn [map combine build fst snd].
    f_equal. apply (IH es d Hlen).
Qed.

Lemma fusion_build (ds : list nat) :
  forall (es : list nat) (c : nat),
    map (fun io => fusion_block (fst io) (snd io))
        (combine (map (fun ed => fst ed + snd ed) (combine es (ups_out c ds))) ds)
    = map snd (build c es ds).
Proof.
  induction ds as [|d ds IH]; intros es c.
  - rewrite combine_nil. destruct es; reflexivity.
  - destruct es as [|e es]; [reflexivity|].
    destruct ds as [|d' ds].
    + cbn. destruct es; reflexivity.
    + unfold ups_out. rewrite ups_in_cons. cbn [map combine build fst snd].
      f_equal. apply (IH es d).
Qed.

Lemma length_adjusted (enc : list nat) (traj : option nat) :
  length (adjusted enc traj) = length enc.
Proof.
  unfold adjusted. destruct (truthy traj); [apply length_map | reflexivity].
Qed.

Lemma init_unfold (enc dec : list nat) (out : nat) (traj : option nat) :
  init enc dec out traj
  = match rev (adjusted enc traj), dec with
    | [], _ => Err IndexError
    | _ :: _, [] => Err IndexError
    | c :: es, _ :: _ =>
        Ok (mk (center_block c)
               (map (fun io => conv3x3 (fst io) (snd io))
                    (combine (ups_in (c * 2) dec) (ups_out (c * 2) dec)))
               (map (fun io => fusion_block (fst io) (snd io))
                    (combine (map (fun ed => fst ed + snd ed)
                                  (combine (c :: es) (ups_out (c * 2) dec))) dec))
               (mkConv2d (last dec 0) out 1 1 0))
    end.
Proof.
  unfold init, adjusted.
  destruct (rev (if truthy traj then _ else _)) as [|c es]; [reflexivity|].
  destruct dec; reflexivity.
Qed.

(** With as many decoder channels as encoder channels, every list of
    the constructor has one entry per stage. *)
Lemma init_build (enc dec : list nat) (out : nat) (traj : option nat)
      (c : nat) (es : list nat) :
  rev (adjusted enc traj) = c :: es ->
  length dec = length enc ->
  init enc dec out traj
  = Ok (mk (center_block c)
           (map fst (build (c * 2) (c :: es) dec))
           (map snd (build (c * 2) (c :: es) dec))
           (mkConv2d (last dec 0) out 1 1 0)).
Proof.
  intros Hrev Hlen. rewrite init_unfold, Hrev.
  assert (Hlen' : length (c :: es) = length dec).
  { rewrite <- Hrev, length_rev, length_adjusted. auto. }
  destruct dec as [|d dec]; [discriminate|].
  rewrite fusion_build, (upsample_build (d :: dec) (c :: es) (c * 2) Hlen').
  reflexivity.
Qed.

Lemma fits_ext (x x' f : Shape) :
  dimN x = dimN x' -> dimH x = dimH x' -> dimW x = dimW x' ->
  fits x f = fits x' f.
Proof. intros HN HH HW. unfold fits. rewrite HN, HH, HW. reflexivity. Qed.

Lemma first_mismatch_ext (fs : list Shape) (x x' : Shape) :
  dimN x = dimN x' -> dimH x = dimH x' -> dimW x = dimW x' ->
  first_mismatch x fs = first_mismatch x' fs.
Proof.
  intros HN HH HW. destruct fs as [|f fs]; [reflexivity|].
  simpl. rewrite (fits_ext x x' f HN HH HW). reflexivity.
Qed.

Lemma fits_true (x f : Shape) :
  fits x f = true ->
  dimN x = dimN f /\ dimH x * 2 = dimH f /\ dimW x * 2 = dimW f.
Proof.
  unfold fits. intros H.
  apply andb_prop in H as [H HW]. apply andb_prop in H as [HN HH].
  apply Nat.eqb_eq in HN, HH, HW. auto.
Qed.

Lemma cat_dim1_fits (i : nat) (x1 x f : Shape) :
  dimN x1 = dimN x -> dimH x1 = dimH x * 2 -> dimW x1 = dimW x * 2 ->
  cat_dim1 i x1 f
  = if fits x f
    then Ok (mkShape (dimN x) (dimC x1 + dimC f) (dimH x * 2) (dimW x * 2))
    else Err (CatSizeMismatch i).
Proof.
  intros HN HH HW. unfold cat_dim1, fits. rewrite HN, HH, HW. reflexivity.
Qed.

(** The loop of [forward]: it stops with the error of [torch.cat] at the
    first skip feature that does not fit, and otherwise reads all of
    them, doubling the extents once per stage. *)
Lemma run_build (fs : list Shape) :
  forall (es ds : list nat) (c : nat) (x : Shape) (i : nat),
    Forall (fun d => 0 < d) ds ->
    Forall (fun d => 2 <= d) (removelast (c :: ds)) ->
    length es = length fs -> length ds = length fs ->
    map dimC fs = es -> dimC x = c ->
    1 <= dimH x -> 1 <= dimW x ->
    run_stages i x fs (map snd (build c es ds)) (map fst (build c es ds))
    = match first_mismatch x fs with
      | None =>
          Ok (mkShape (dimN x) (last ds c)
                      (dimH x * 2 ^ length fs) (dimW x * 2 ^ length fs), fs)
      | Some k => Err (CatSizeMismatch (i + k))
      end.
Proof.
  induction fs as [|f fs IH]; intros es ds c x i Hpos Hhalf Hes Hds Hch HC HH HW.
  - destruct es; [|discriminate]. destruct ds; [|discriminate].
    simpl. rewrite !Nat.mul_1_r, <- HC. destruct x; reflexivity.
  - destruct es as [|e es]; [discriminate|].
    destruct ds as [|d ds]; [discriminate|].
    injection Hes as Hes. injection Hds as Hds. injection Hch as He Hch.
    change (removelast (c :: d :: ds)) with (c :: removelast (d :: ds)) in Hhalf.
    pose proof (Forall_inv Hhalf) as Hc2. cbn beta in Hc2.
    pose proof (Forall_inv_tail Hhalf) as Hhalf'.
    pose proof (Forall_inv Hpos) as Hd. cbn beta in Hd.
    pose proof (Forall_inv_tail Hpos) as Hpos'.
    assert (Hup : 0 < c / 2) by (apply Nat.div_str_pos; lia).
    cbn [build map fst snd run_stages].
    unfold interpolate.
    destruct (Nat.eqb_spec (dimH x) 0); [lia|].
    destruct (Nat.eqb_spec (dimW x) 0); [lia|]. cbn [orb bind].
    rewrite conv3x3_forward by (cbn [dimC dimH dimW]; lia).
    cbn [bind dimN dimH dimW].
    rewrite (cat_dim1_fits i _ x f) by reflexivity.
    cbn [first_mismatch]. destruct (fits x f) eqn:Hfit.
    + apply fits_true in Hfit as (HN & HfH & HfW).
      cbn [bind dimC].
      rewrite fusion_block_forward by (cbn [dimC dimH dimW]; lia).
      cbn [bind dimN dimH dimW].
      rewrite (IH es ds d _ (S i) Hpos' Hhalf' Hes Hds Hch) by (cbn [dimC dimH dimW]; lia).
      rewrite (first_mismatch_ext fs (mkShape (dimN x) d (dimH x * 2) (dimW x * 2)) f)
        by (cbn [dimN dimH dimW]; lia).
      destruct (first_mismatch f fs) as [k|]; cbn [option_map bind fst snd].
      * f_equal. f_equal. lia.
      * cbn [dimN dimH dimW length]. rewrite Nat.pow_succ_r'.
        rewrite !Nat.mul_assoc.
        rewrite last_cons. reflexivity.
    + rewrite Nat.add_0_r. reflexivity.
Qed.

Lemma first_mismatch_snoc (fs : list Shape) :
  forall (x f : Shape),
    first_mismatch x fs = None -> fits (last fs x) f = true ->
    first_mismatch x (fs ++ [f]) = None.
Proof.
  induction fs as [|g fs IH]; intros x f Hnone Hfit.
  - simpl in *. rewrite Hfit. reflexivity.
  - rewrite last_cons in Hfit. simpl in *.
    destruct (fits x g); [|discriminate].
    destruct (first_mismatch g fs) eqn:E; [discriminate|].
    rewrite (IH g f E Hfit). reflexivity.
Qed.

Lemma first_mismatch_none_last (fs : list Shape) :
  forall x : Shape,
    first_mismatch x fs = None ->
    dimN (last fs x) = dimN x
    /\ dimH (last fs x) = dimH x * 2 ^ length fs
    /\ dimW (last fs x) = dimW x * 2 ^ length fs.
Proof.
  induction fs as [|f fs IH]; intros x Hnone.
  - simpl. lia.
  - rewrite last_cons. simpl in Hnone.
    destruct (fits x f) eqn:Hfit; [|discriminate].
    destruct (first_mismatch f fs) eqn:E; [discriminate|].
    apply fits_true in Hfit as (HN & HH & HW).
    destruct (IH f E) as (IN & IH' & IW).
    cbn [length]. rewrite Nat.pow_succ_r'. lia.
Qed.

(** A pyramid that halves down is read without a mismatch. *)
Lemma halves_down_fits (features : list Shape) :
  halves_down features ->
  forall (b : Shape) (fs : list Shape),
    rev features = b :: fs ->
    first_mismatch b fs = None /\ 1 <= dimH b /\ 1 <= dimW b.
Proof.
  induction features as [|f rest IH]; intros Hh b fs Hrev; [contradiction|].
  destruct rest as [|g rest].
  - simpl in Hrev. injection Hrev as <- <-. simpl in Hh. simpl. tauto.
  - destruct Hh as (HN & HH & HW & Hrest).
    destruct (rev (g :: rest)) as [|b' fs'] eqn:E.
    { apply (f_equal (@length Shape)) in E. rewrite length_rev in E. discriminate. }
    change (rev (f :: g :: rest)) with (rev (g :: rest) ++ [f]) in Hrev.
    rewrite E in Hrev. injection Hrev as <- <-.
    destruct (IH Hrest b' fs' eq_refl) as (Hnone & Hb).
    split; [|exact Hb].
    apply first_mismatch_snoc; [exact Hnone|].
    assert (Hlast : last fs' b' = g).
    { rewrite <- (last_cons fs' b' g), <- E. apply (last_rev (g :: rest)). }
    rewrite Hlast. unfold fits.
    rewrite HN, HH, HW, !Nat.eqb_refl. reflexivity.
Qed.

(** [forward] of a decoder built with as many decoder channels as
    encoder channels, on a pyramid whose channel counts match. *)
Lemma decoder_forward_built (enc dec : list nat) (out : nat) (traj : option nat)
      (d : t) (features : list Shape) (b : Shape) (fs : list Shape) :
  Forall (fun c => 0 < c) enc ->
  Forall (fun c => 0 < c) dec ->
  halvable dec ->
  0 < out ->
  init enc dec out traj = Ok d ->
  length dec = length enc ->
  rev features = b :: fs ->
  map dimC features = pyramid_channels (adjusted enc traj) ->
  1 <= dimH b -> 1 <= dimW b ->
  forward_skips d features
  = match first_mismatch b fs with
    | None =>
        Ok (mkShape (dimN b) out (dimH b * 2 ^ length fs) (dimW b * 2 ^ length fs),
            fs)
    | Some k => Err (CatSizeMismatch k)
    end.
Proof.
  intros Henc Hdec Hhalf Hout Hinit Hlen Hrev Hch HH HW.
  assert (Hch' : map dimC (b :: fs)
                 = last (adjusted enc traj) 0 :: rev (adjusted enc traj)).
  { rewrite <- Hrev, map_rev, Hch. unfold pyramid_channels. apply rev_unit. }
  injection Hch' as Hb Hfs.
  pose proof (Forall_rev (adjusted_positive enc traj Henc)) as Hrevpos.
  destruct (rev (adjusted enc traj)) as [|c es] eqn:E.
  { rewrite init_unfold, E in Hinit. discriminate. }
  pose proof (Forall_inv Hrevpos) as Hc0. cbn beta in Hc0.
  assert (Hc : last (adjusted enc traj) 0 = c).
  { rewrite <- (rev_involutive (adjusted enc traj)), E. apply (last_rev (c :: es)). }
  rewrite (init_build enc dec out traj c es E Hlen) in Hinit.
  injection Hinit as <-.
  assert (Hn : length (c :: es) = length fs).
  { rewrite <- Hfs. apply length_map. }
  assert (Hd : length dec = length fs).
  { rewrite <- Hn, <- E, length_rev, length_adjusted. exact Hlen. }
  unfold forward_skips. rewrite Hrev. cbn [center decoder upsample_conv predictor].
  rewrite center_block_forward by (try assumption; congruence).
  cbn [bind].
  rewrite (run_build fs (c :: es) dec (c * 2) _ 0 Hdec
             (halvable_from (c * 2) dec ltac:(lia) Hhalf) Hn Hd Hfs)
    by (cbn [dimC dimH dimW]; auto).
  rewrite (first_mismatch_ext fs
             (mkShape (dimN b) (c * 2) (dimH b) (dimW b)) b) by reflexivity.
  destruct (first_mismatch b fs) as [k|]; [reflexivity|].
  cbn [bind fst snd dimN dimH dimW].
  assert (Hp : 1 <= 2 ^ length fs)
    by (pose proof (Nat.pow_nonzero 2 (length fs)); lia).
  rewrite conv1x1_forward; cbn [dimN dimC dimH dimW]; try nia.
  - reflexivity.
  - destruct dec as [|d0 dec]; [destruct fs; discriminate|].
    apply last_default.
Qed.

Lemma decoder_init_ok (enc dec : list nat) (out : nat) (traj : option nat) :
  enc <> [] -> dec <> [] ->
  exists d : t,
    init enc dec out traj = Ok d
    /\ length (decoder d) = Nat.min (length enc) (length dec)
    /\ length (upsample_conv d) = length dec.
Proof.
  intros Henc Hdec. rewrite init_unfold.
  destruct (rev (adjusted enc traj)) as [|c es] eqn:E.
  { apply (f_equal (@length nat)) in E.
    rewrite length_rev, length_adjusted in E.
    destruct enc; [contradiction | discriminate]. }
  assert (Hn : length (c :: es) = length enc)
    by (rewrite <- E, length_rev; apply length_adjusted).
  destruct dec as [|d0 dec]; [contradiction|].
  assert (Hu : length (ups_in (c * 2) (d0 :: dec)) = length (d0 :: dec)).
  { unfold ups_in. rewrite length_app, removelast_firstn_len, length_firstn.
    cbn [length]. lia. }
  eexists. split; [reflexivity|]. cbn [decoder upsample_conv]. split.
  - rewrite length_map, length_combine, length_map, length_combine.
    unfold ups_out. rewrite length_map, Hu, Hn. lia.
  - rewrite length_map, length_combine. unfold ups_out.
    rewrite length_map, Hu. lia.
Qed.

End DecoderFacts.

(** ** The encoder's pyramid under the decoder *)

Module PyramidFacts.

Lemma first_mismatch_some (fs : list Shape) :
  forall (x d : Shape) (k : nat),
    first_mismatch x fs = Some k ->
    k < length fs
    /\ fits (nth k (x :: fs) d) (nth (S k) (x :: fs) d) = false
    /\ forall j, j < k -> fits (nth j (x :: fs) d) (nth (S j) (x :: fs) d) = true.
Proof.
  induction fs as [|f fs IH]; intros x d k Hk; [discriminate|].
  cbn [first_mismatch] in Hk. destruct (fits x f) eqn:Hfit.
  - destruct (first_mismatch f fs) as [k'|] eqn:E; [|discriminate].
    injection Hk as <-. destruct (IH f d k' E) as (Hlt & Hfalse & Hbefore).
    split; [cbn [length]; lia|]. split; [exact Hfalse|].
    intros [|j] Hj; [exact Hfit | apply Hbefore; lia].
  - injection Hk as <-. split; [cbn [length]; lia|].
    split; [exact Hfit | intros j Hj; lia].
Qed.


Lemma below_dims (rest : list nat) :
  forall (n c h w j : nat) (d : Shape),
    j <= length rest ->
    dimN (nth j (below n c h w rest) d) = n
    /\ dimH (nth j (below n c h w rest) d) = h / 2 ^ S j
    /\ dimW (nth j (below n c h w rest) d) = w / 2 ^ S j.
Proof.
  induction rest as [|c' rest IH]; intros n c h w j d Hj.
  - assert (j = 0) by (cbn [length] in Hj; lia). subst j.
    cbn [below nth dimN dimH dimW]. rewrite Nat.pow_1_r. auto.
  - destruct j as [|j].
    + cbn [below nth dimN dimH dimW]. rewrite Nat.pow_1_r. auto.
    + cbn [below nth]. cbn [length] in Hj.
      destruct (IH n c' (h / 2) (w / 2) j d ltac:(lia)) as (HN & HH & HW).
      rewrite HN, HH, HW, !Nat.Div0.div_div, <- !Nat.pow_succ_r'. auto.
Qed.

Lemma pyramid_dims (rest : list nat) (x : Shape) (c0 j : nat) (d : Shape) :
  j <= S (length rest) ->
  let p := nth j (mkShape (dimN x) c0 (dimH x) (dimW x)
                  :: below (dimN x) c0 (dimH x) (dimW x) rest) d in
  dimN p = dimN x /\ dimH p = dimH x / 2 ^ j /\ dimW p = dimW x / 2 ^ j.
Proof.
  intros Hj. destruct j as [|j].
  - cbn [nth dimN dimH dimW]. rewrite Nat.pow_0_r, !Nat.div_1_r. auto.
  - cbn [nth]. apply below_dims. lia.
Qed.

Lemma map_dimC_below (rest : list nat) :
  forall n c h w : nat,
    map dimC (below n c h w rest) = rest ++ [last (c :: rest) 0].
Proof.
  induction rest as [|c' rest IH]; intros n c h w; [reflexivity|].
  cbn [below map dimC app]. rewrite IH. reflexivity.
Qed.

(** One halving step of an extent, and divisibility by a power of 2. *)
Lemma divide_pow2_step (n h : nat) :
  Nat.divide (2 ^ S n) h <-> h / 2 * 2 = h /\ Nat.divide (2 ^ n) (h / 2).
Proof.
  rewrite Nat.pow_succ_r'. split.
  - intros [q Hq]. subst h.
    replace (q * (2 * 2 ^ n)) with (q * 2 ^ n * 2) by lia.
    rewrite Nat.div_mul by discriminate. split; [reflexivity|].
    exists q. reflexivity.
  - intros [Hh [q Hq]]. exists q. rewrite <- Hh, Hq. lia.
Qed.

Lemma steps_divide (n : nat) :
  forall h : nat,
    (forall t, t < n -> h / 2 ^ S t * 2 = h / 2 ^ t) <-> Nat.divide (2 ^ n) h.
Proof.
  induction n as [|n IH]; intros h.
  - split; [intros _; exists h; simpl; lia | intros _ t Ht; lia].
  - rewrite divide_pow2_step, <- IH. split.
    + intros Hall. split.
      * specialize (Hall 0 ltac:(lia)).
        rewrite Nat.pow_1_r, Nat.pow_0_r, Nat.div_1_r in Hall. exact Hall.
      * intros t Ht. specialize (Hall (S t) ltac:(lia)).
        rewrite !Nat.Div0.div_div, <- !Nat.pow_succ_r'. exact Hall.
    + intros [H0 Hall] [|t] Ht.
      * rewrite Nat.pow_1_r, Nat.pow_0_r, Nat.div_1_r. exact H0.
      * specialize (Hall t ltac:(lia)).
        rewrite !Nat.Div0.div_div, <- !Nat.pow_succ_r' in Hall. exact Hall.
Qed.

Lemma agrees_divide (n h : nat) :
  (forall i, i < n -> agrees h n i) <-> Nat.divide (2 ^ n) h.
Proof.
  rewrite <- steps_divide. unfold agrees. split.
  - intros Hall t Ht. specialize (Hall (n - S t) ltac:(lia)).
    replace (n - (n - S t)) with (S t) in Hall by lia.
    replace (n - S (n - S t)) with t in Hall by lia. exact Hall.
  - intros Hall i Hi. specialize (Hall (n - S i) ltac:(lia)).
    replace (S (n - S i)) with (n - i) in Hall by lia. exact Hall.
Qed.

(** Neighbours of the reversed pyramid fit exactly when the pooled
    extents agree. *)
Lemma fits_rev_pyramid (rest : list nat) (x : Shape) (c0 j : nat) (d : Shape) :
  let n := S (length rest) in
  let P := mkShape (dimN x) c0 (dimH x) (dimW x)
           :: below (dimN x) c0 (dimH x) (dimW x) rest in
  j < n ->
  (fits (nth j (rev P) d) (nth (S j) (rev P) d) = true
   <-> agrees (dimH x) n j /\ agrees (dimW x) n j).
Proof.
  intros n P Hj.
  assert (HP : length P = S n).
  { unfold P. cbn [length]. rewrite EncoderFacts.length_below. reflexivity. }
  rewrite !rev_nth by lia. rewrite HP.
  replace (S n - S j) with (n - j) by lia.
  replace (S n - S (S j)) with (n - S j) by lia.
  destruct (pyramid_dims rest x c0 (n - j) d ltac:(lia)) as (N1 & H1 & W1).
  destruct (pyramid_dims rest x c0 (n - S j) d ltac:(lia)) as (N2 & H2 & W2).
  fold P in N1, H1, W1, N2, H2, W2.
  unfold fits, agrees. rewrite N1, H1, W1, N2, H2, W2, Nat.eqb_refl.
  cbn [andb]. rewrite andb_true_iff, !Nat.eqb_eq. reflexivity.
Qed.

End PyramidFacts.

(** ** The top-level constructor *)

Module ModelFacts.
Import YNetTorch.

(** The constructor succeeds as soon as the backbone is there (or none
    is asked for) and both channel lists are non-empty; [sc] is the
    value of [semantic_classes] after the backbone branch. *)
Lemma model_init_ok (torch_load : string -> bool) (obs_len pred_len : nat)
      (fp : option string) (use_features_only : bool) (semantic_classes : nat)
      (enc dec : list nat) (waypoints : nat) (b : Backbone) (sc : nat) :
  match fp with
  | Some p =>
      torch_load p = true
      /\ (b, sc) = if use_features_only
                   then (Segmenter p IdentityHead, 16)
                   else (Segmenter p PretrainedHead, semantic_classes)
  | None => (b, sc) = (Identity, semantic_classes)
  end ->
  enc <> [] -> dec <> [] ->
  exists m : t,
    init torch_load obs_len pred_len fp use_features_only semantic_classes
         enc dec waypoints = Ok m
    /\ semantic_segmentation m = b
    /\ encoder_in_channels m = Some (sc + obs_len)
    /\ YNetEncoder.init (sc + obs_len) enc = Ok (encoder m)
    /\ YNetDecoder.init enc dec pred_len None = Ok (goal_decoder m)
    /\ YNetDecoder.init enc dec pred_len (Some waypoints) = Ok (traj_decoder m).
Proof.
  intros Hfp Henc Hdec.
  destruct (DecoderFacts.decoder_init_ok enc dec pred_len None Henc Hdec) as (g & Hg & _).
  destruct (DecoderFacts.decoder_init_ok enc dec pred_len (Some waypoints) Henc Hdec)
    as (tr & Htr & _).
  destruct enc as [|c0 rest]; [contradiction|].
  assert (Hbs : match fp with
                | Some p =>
                    if torch_load p then
                      if use_features_only
                      then Ok (Segmenter p IdentityHead, 16)
                      else Ok (Segmenter p PretrainedHead, semantic_classes)
                    else Err LoadError
                | None => Ok (Identity, semantic_classes)
                end = Ok (b, sc)).
  { destruct fp as [p|].
    - destruct Hfp as [-> Hb]. rewrite Hb.
      destruct use_features_only; reflexivity.
    - rewrite Hfp. reflexivity. }
  unfold init. rewrite Hbs. cbn [bind fst snd].
  rewrite EncoderFacts.init_stages. cbn [bind].
  rewrite Hg. cbn [bind]. rewrite Htr. cbn [bind].
  eexists. split; [reflexivity|].
  cbn [semantic_segmentation encoder goal_decoder traj_decoder].
  repeat split.
Qed.

Lemma model_init_inv (torch_load : string -> bool) (obs_len pred_len : nat)
      (fp : option string) (use_features_only : bool) (semantic_classes : nat)
      (enc dec : list nat) (waypoints : nat) (m : t) :
  init torch_load obs_len pred_len fp use_features_only semantic_classes
       enc dec waypoints = Ok m ->
  exists sc : nat,
    YNetEncoder.init (sc + obs_len) enc = Ok (encoder m)
    /\ YNetDecoder.init enc dec pred_len None = Ok (goal_decoder m)
    /\ YNetDecoder.init enc dec pred_len (Some waypoints) = Ok (traj_decoder m).
Proof.
  unfold init. intros H.
  apply bind_ok in H as (bs & _ & H).
  apply bind_ok in H as (e & He & H).
  apply bind_ok in H as (g & Hg & H).
  apply bind_ok in H as (tr & Htr & H).
  injection H as <-. exists (snd bs). auto.
Qed.



End ModelFacts.

(** ** Sums over grids *)

Module GridFacts.

Local Open Scope R_scope.

Lemma sum_list_app (u v : list R) :
  sum_list (u ++ v) = sum_list u + sum_list v.
Proof.
  induction u as [|a u IH]; simpl; [lra | rewrite IH; lra].
Qed.

Lemma sum_list_concat (ls : list (list R)) :
  sum_list (concat ls) = sum_list (map sum_list ls).
Proof.
  induction ls as [|l ls IH]; [reflexivity|].
  cbn [concat map]. rewrite sum_list_app, IH. reflexivity.
Qed.

Lemma combine_map_same {A B C : Type} (f : A -> B) (g : A -> C) (l : list A) :
  combine (map f l) (map g l) = map (fun a => (f a, g a)) l.
Proof.
  induction l as [|a l IH]; [reflexivity|]. simpl. rewrite IH. reflexivity.
Qed.

Lemma combine_app_same {A B : Type} (l1 l2 : list A) (l1' l2' : list B) :
  length l1 = length l1' ->
  combine (l1 ++ l2) (l1' ++ l2') = combine l1 l1' ++ combine l2 l2'.
Proof.
  revert l1'. induction l1 as [|a l1 IH]; intros [|b l1'] Hlen;
    try discriminate; [reflexivity|].
  simpl. rewrite IH by (injection Hlen; auto). reflexivity.
Qed.

Lemma combine_concat_map {A B : Type} (F : nat -> list A) (G : nat -> list B)
      (l : list nat) :
  (forall i, length (F i) = length (G i)) ->
  combine (concat (map F l)) (concat (map G l))
  = concat (map (fun i => combine (F i) (G i)) l).
Proof.
  intros Hlen. induction l as [|i l IH]; [reflexivity|].
  cbn [map concat]. rewrite combine_app_same by apply Hlen.
  rewrite IH. reflexivity.
Qed.

(** A product of two grids given cell by cell is a double sum. *)
Lemma dot_grid (pa g : nat -> nat -> R) (h w : nat) :
  dot (concat (map (fun i => map (pa i) (seq 0 w)) (seq 0 h)))
      (concat (map (fun i => map (g i) (seq 0 w)) (seq 0 h)))
  = sum_list (map (fun i => sum_list (map (fun j => pa i j * g i j) (seq 0 w)))
                  (seq 0 h)).
Proof.
  unfold dot.
  rewrite combine_concat_map by (intros i; rewrite !length_map; reflexivity).
  rewrite concat_map, sum_list_concat, !map_map.
  f_equal. apply map_ext. intros i.
  rewrite combine_map_same, map_map. reflexivity.
Qed.

Lemma sum_delta (f : nat -> R) (j n : nat) :
  forall s : nat,
    sum_list (map (fun k => if (k =? j)%nat then f k else 0) (seq s n))
    = if ((s <=? j) && (j <? s + n))%nat then f j else 0.
Proof.
  induction n as [|n IH]; intros s.
  - simpl. destruct (Nat.leb_spec s j); destruct (Nat.ltb_spec j (s + 0));
      simpl; try reflexivity; lia.
  - cbn [seq map sum_list fold_right]. fold (sum_list
      (map (fun k => if (k =? j)%nat then f k else 0) (seq (S s) n))).
    rewrite IH.
    destruct (Nat.eqb_spec s j) as [Heq|Hne];
      destruct (Nat.leb_spec (S s) j); destruct (Nat.ltb_spec j (S s + n));
      destruct (Nat.leb_spec s j); destruct (Nat.ltb_spec j (s + S n));
      cbn [andb]; try lia; try subst s; lra.
Qed.

Lemma sum_one_hot_row (f : nat -> R) (here : bool) (j w : nat) :
  (j < w)%nat ->
  sum_list (map (fun j' => f j' * (if here && (j' =? j)%nat then 1 else 0))
                (seq 0 w))
  = if here then f j else 0.
Proof.
  intros Hj.
  rewrite (map_ext _ (fun k => if (k =? j)%nat then (if here then f k else 0) else 0)).
  - rewrite sum_delta. cbn [Nat.leb andb Nat.add].
    destruct (Nat.ltb_spec j w); [reflexivity | lia].
  - intros k. destruct here; destruct (k =? j)%nat; cbn [andb]; lra.
Qed.

Lemma sum_one_hot_rows (a : R) (i h : nat) :
  (i < h)%nat ->
  sum_list (map (fun i' => if (i' =? i)%nat then a else 0) (seq 0 h)) = a.
Proof.
  intros Hi. rewrite (sum_delta (fun _ => a)). cbn [Nat.leb andb Nat.add].
  destruct (Nat.ltb_spec i h); [reflexivity | lia].
Qed.

(** A grid of [h] rows of [w] cells is the table of its cells. *)
Lemma grid_ext (ch : list (list R)) (h w : nat) (g : nat -> nat -> R) :
  length ch = h ->
  Forall (fun row => length row = w) ch ->
  (forall i j, (i < h)%nat -> (j < w)%nat -> nth j (nth i ch []) 0 = g i j) ->
  ch = map (fun i => map (g i) (seq 0 w)) (seq 0 h).
Proof.
  intros Hh Hw Hg.
  apply (nth_ext _ _ [] []).
  - rewrite length_map, length_seq. exact Hh.
  - intros i Hi. rewrite Hh in Hi.
    rewrite (nth_indep (map (fun i => map (g i) (seq 0 w)) (seq 0 h))
                       [] (map (g 0%nat) (seq 0 w)))
      by (rewrite length_map, length_seq; exact Hi).
    rewrite (map_nth (fun i => map (g i) (seq 0 w)) (seq 0 h) 0%nat i).
    rewrite seq_nth by exact Hi. cbn [Nat.add].
    assert (Hrow : length (nth i ch []) = w).
    { rewrite Forall_forall in Hw. apply Hw. apply nth_In. lia. }
    apply (nth_ext _ _ 0 0).
    + rewrite length_map, length_seq. exact Hrow.
    + intros j Hj. rewrite Hrow in Hj.
      rewrite (nth_indep (map (g i) (seq 0 w)) 0 (g i 0%nat))
        by (rewrite length_map, length_seq; exact Hj).
      rewrite (map_nth (g i) (seq 0 w) 0%nat j).
      rewrite seq_nth by exact Hj. cbn [Nat.add]. apply Hg; assumption.
Qed.

End GridFacts.

(** ** Batches of images *)

Module TensorFacts.

Local Open Scope R_scope.

Lemma has_shape_image (x : Tensor4) (n c h w b : nat) :
  has_shape x n c h w -> (b < n)%nat ->
  length (nth b x []) = c
  /\ Forall (fun ch => length ch = h /\ Forall (fun row => length row = w) ch)
            (nth b x []).
Proof.
  intros [Hn Hall] Hb. rewrite Forall_forall in Hall.
  apply Hall. apply nth_In. lia.
Qed.

Lemma has_shape_slice (x : Tensor4) (n c h w b k : nat) :
  has_shape x n c h w -> (b < n)%nat -> (k < c)%nat ->
  length (slice x b k) = h
  /\ Forall (fun row => length row = w) (slice x b k).
Proof.
  intros Hx Hb Hk.
  destruct (has_shape_image x n c h w b Hx Hb) as [Hc Hall].
  rewrite Forall_forall in Hall. apply Hall. apply nth_In. lia.
Qed.

Lemma size4_has_shape (x : Tensor4) (n c h w : nat) :
  has_shape x n c h w -> (0 < n)%nat -> (0 < c)%nat -> (0 < h)%nat ->
  size4 x = (n, c, h, w).
Proof.
  intros Hx Hn Hc Hh.
  destruct (has_shape_image x n c h w 0 Hx Hn) as [Hc0 _].
  destruct (has_shape_slice x n c h w 0 0 Hx Hn Hc) as [Hh0 Hw0].
  destruct Hx as [Hlen _]. unfold slice in Hh0, Hw0.
  destruct x as [|img x]; [cbn [length] in Hlen; lia|].
  cbn [nth] in Hc0, Hh0, Hw0.
  destruct img as [|ch img]; [cbn [length] in Hc0; lia|].
  cbn [nth] in Hh0, Hw0.
  destruct ch as [|row ch]; [cbn [length] in Hh0; lia|].
  unfold size4. cbn [hd]. rewrite Hlen, Hc0, Hh0.
  inversion Hw0 as [|? ? Hrow _]. rewrite Hrow. reflexivity.
Qed.

Lemma nth_map_map {A : Type} (F : list (list R) -> A) (dA : A)
      (x : Tensor4) (n c h w b k : nat) :
  has_shape x n c h w -> (b < n)%nat -> (k < c)%nat ->
  nth k (nth b (map (map F) x) []) dA = F (slice x b k).
Proof.
  intros Hx Hb Hk.
  destruct (has_shape_image x n c h w b Hx Hb) as [Hc _].
  change (@nil A) with (map F []).
  rewrite (map_nth (map F) x [] b).
  rewrite (nth_indep (map F (nth b x [])) dA (F []))
    by (rewrite length_map; lia).
  rewrite (map_nth F (nth b x []) [] k). reflexivity.
Qed.

(** [softargmax_on_softmax_map], channel by channel. *)
Lemma softargmax_unfold (x : Tensor4) :
  softargmax_on_softmax_map x
  = map (map (fun ch =>
                [dot (concat (snd (create_meshgrid x))) (concat ch);
                 dot (concat (fst (create_meshgrid x))) (concat ch)])) x.
Proof.
  unfold softargmax_on_softmax_map.
  destruct (create_meshgrid x) as [pos_y pos_x]. cbn [fst snd].
  unfold sum_last_keepdim, mul_last, flatten2. rewrite !map_map.
  rewrite (map_ext _ (map (fun ch => [dot (concat pos_x) (concat ch)])))
    by (intros img; rewrite !map_map; reflexivity).
  rewrite (map_ext (fun img => map _ (map _ (map _ img)))
                   (map (fun ch => [dot (concat pos_y) (concat ch)])))
    by (intros img; rewrite !map_map; reflexivity).
  set (F := fun ch : list (list R) => [dot (concat pos_x) (concat ch)]).
  set (G := fun ch : list (list R) => [dot (concat pos_y) (concat ch)]).
  unfold cat_last. rewrite GridFacts.combine_map_same, map_map.
  apply map_ext. intros img. cbn [fst snd].
  rewrite GridFacts.combine_map_same, map_map. reflexivity.
Qed.

Lemma create_meshgrid_shape (x : Tensor4) (n c h w : nat) :
  size4 x = (n, c, h, w) ->
  create_meshgrid x
  = (map (fun i => map (fun _ => INR i) (seq 0 w)) (seq 0 h),
     map (fun _ => map (fun j => INR j) (seq 0 w)) (seq 0 h)).
Proof. intros Hs. unfold create_meshgrid. rewrite Hs. reflexivity. Qed.

End TensorFacts.

(** ** Softmax over the pixels of a channel *)

Module SoftmaxFacts.

Local Open Scope R_scope.

Lemma rows_of_spec (h w : nat) :
  forall v : list R,
    length v = (h * w)%nat ->
    length (rows_of h w v) = h
    /\ Forall (fun row => length row = w) (rows_of h w v)
    /\ concat (rows_of h w v) = v.
Proof.
  induction h as [|h IH]; intros v Hv.
  - cbn [Nat.mul] in Hv. apply length_zero_iff_nil in Hv. subst v.
    repeat split. constructor.
  - cbn [rows_of length concat].
    assert (Hskip : length (skipn w v) = (h * w)%nat)
      by (rewrite length_skipn, Hv; cbn [Nat.mul]; lia).
    destruct (IH (skipn w v) Hskip) as (Hlen & Hrows & Hcat).
    split; [rewrite Hlen; reflexivity|]. split.
    + constructor; [|exact Hrows].
      rewrite length_firstn, Hv. cbn [Nat.mul]. lia.
    + rewrite Hcat. apply firstn_skipn.
Qed.

Lemma length_concat_grid (ch : list (list R)) (h w : nat) :
  length ch = h -> Forall (fun row => length row = w) ch ->
  length (concat ch) = (h * w)%nat.
Proof.
  intros Hh Hw. subst h. induction Hw as [|row ch Hrow _ IH]; [reflexivity|].
  cbn [concat length Nat.mul]. rewrite length_app, Hrow, IH. reflexivity.
Qed.

Lemma sum_list_scaled (f : R -> R) (s : R) (v : list R) :
  sum_list (map (fun a => f a / s) v) = sum_list (map f v) / s.
Proof.
  induction v as [|a v IH]; simpl; [lra | rewrite IH; lra].
Qed.

Lemma sum_exp_pos (v : list R) : v <> [] -> 0 < sum_list (map exp v).
Proof.
  intros Hv. destruct v as [|a v]; [contradiction|]. clear Hv.
  revert a. induction v as [|a' v IH]; intros a.
  - simpl. pose proof (exp_pos a). lra.
  - specialize (IH a'). cbn [map sum_list fold_right] in *.
    pose proof (exp_pos a). lra.
Qed.

Lemma length_softmax_1d (v : list R) : length (softmax_1d v) = length v.
Proof. apply length_map. Qed.

Lemma softmax_1d_sum (v : list R) : v <> [] -> sum_list (softmax_1d v) = 1.
Proof.
  intros Hv. unfold softmax_1d. rewrite sum_list_scaled.
  pose proof (sum_exp_pos v Hv). apply Rdiv_diag. lra.
Qed.

Lemma softmax_1d_pos (v : list R) : Forall (fun a => 0 <= a) (softmax_1d v).
Proof.
  unfold softmax_1d. rewrite Forall_map. apply Forall_forall. intros a Ha.
  assert (Hv : v <> []) by (intros ->; contradiction).
  pose proof (sum_exp_pos v Hv). pose proof (exp_pos a).
  apply Rlt_le. apply Rdiv_lt_0_compat; assumption.
Qed.

(** [softmax], channel by channel. *)
Lemma softmax_unfold (x : Tensor4) (n c h w : nat) :
  image_batch x n c h w ->
  softmax x
  = map (map (fun ch => rows_of h w (softmax_1d (concat ch)))) x.
Proof.
  intros (Hx & Hh & Hw). unfold softmax, view_as, flatten2.
  destruct (size4 x) as [[[n' c'] h'] w'] eqn:Hs.
  rewrite !map_map. apply map_ext_in. intros img Himg.
  rewrite !map_map. apply map_ext_in. intros ch Hch.
  assert (Hn : (0 < n)%nat).
  { destruct Hx as [Hlen _]. destruct x; [contradiction | cbn [length] in Hlen; lia]. }
  assert (Hc : (0 < c)%nat).
  { destruct Hx as [_ Hall]. rewrite Forall_forall in Hall.
    destruct (Hall img Himg) as [Hlen _].
    destruct img; [contradiction | cbn [length] in Hlen; lia]. }
  rewrite (TensorFacts.size4_has_shape x n c h w Hx Hn Hc Hh) in Hs.
  injection Hs as _ _ <- <-. reflexivity.
Qed.

Lemma softmax_slice (x : Tensor4) (n c h w b k : nat) :
  image_batch x n c h w -> (b < n)%nat -> (k < c)%nat ->
  slice (softmax x) b k = rows_of h w (softmax_1d (concat (slice x b k))).
Proof.
  intros Hx Hb Hk. rewrite (softmax_unfold x n c h w Hx).
  destruct Hx as (Hx & _). unfold slice at 1.
  apply (TensorFacts.nth_map_map
           (fun ch => rows_of h w (softmax_1d (concat ch))) [] x n c h w b k
           Hx Hb Hk).
Qed.

End SoftmaxFacts.

(** * The claims *)

(** ** C1: the pyramid of the encoder *)




(** ** C2: what the decoder reads and returns *)

(** C2, as amended.  For valid channel lists with as many decoder
    channels as encoder channels (the shape of the default configuration),
    every decoder channel but the last at least 2 (an upsample convolution
    halves it), a positive [output_len] and every pyramid of matching
    shapes, [forward] reads exactly [len(decoder_channels)] pyramid
    entries as skip connections, all but the bottleneck, from coarse to
    fine, and returns a tensor of [output_len] channels at the resolution
    of the finest pyramid entry. *)
Theorem decoder_reads_skips_to_finest :
  forall (enc dec : list nat) (out : nat) (traj : option nat)
         (features : list Shape),
    valid_channels enc -> valid_channels dec ->
    halvable dec -> 0 < out ->
    length dec = length enc ->
    matching_pyramid (adjusted enc traj) features ->
    exists (d : YNetDecoder.t) (y : Shape) (skips : list Shape),
      YNetDecoder.init enc dec out traj = Ok d
      /\ YNetDecoder.forward_skips d features = Ok (y, skips)
      /\ YNetDecoder.forward d features = Ok y
      /\ skips = tl (rev features)
      /\ length skips = length dec
      /\ dimC y = out
      /\ dimH y = dimH (hd y features)
      /\ dimW y = dimW (hd y features).
Proof.
  intros enc dec out traj features [Henc Hencpos] [Hdec Hdecpos] Hhalv Hout
         Hlen [Hch Hhalf].
  destruct (DecoderFacts.decoder_init_ok enc dec out traj Henc Hdec) as (d & Hd & _).
  destruct (rev features) as [|b fs] eqn:Hrev.
  { apply (f_equal (@rev Shape)) in Hrev. rewrite rev_involutive in Hrev.
    subst features. contradiction. }
  destruct (DecoderFacts.halves_down_fits features Hhalf b fs Hrev)
    as (Hnone & HbH & HbW).
  pose proof (DecoderFacts.decoder_forward_built enc dec out traj d features b fs
                Hencpos Hdecpos Hhalv Hout Hd Hlen Hrev Hch HbH HbW) as Hfwd.
  rewrite Hnone in Hfwd.
  destruct (DecoderFacts.first_mismatch_none_last fs b Hnone) as (_ & HlH & HlW).
  assert (Hhd : forall y, hd y features = last fs b).
  { intros y. rewrite <- (last_rev features y), Hrev. apply last_cons. }
  assert (Hfs : length fs = length dec).
  { apply (f_equal (@length nat)) in Hch.
    rewrite length_map in Hch. unfold pyramid_channels in Hch.
    rewrite length_app, DecoderFacts.length_adjusted in Hch.
    apply (f_equal (@length Shape)) in Hrev.
    rewrite length_rev in Hrev. cbn [length] in Hch, Hrev. lia. }
  eexists d, _, fs. split; [exact Hd|]. split; [exact Hfwd|].
  split; [unfold YNetDecoder.forward; rewrite Hfwd; reflexivity|].
  split; [reflexivity|]. split; [exact Hfs|].
  rewrite Hhd, HlH, HlW. cbn [dimC dimH dimW]. auto.
Qed.

Lemma decoder_reads_skips_to_finest_witness :
  exists (d : YNetDecoder.t) (y : Shape) (skips : list Shape),
    YNetDecoder.init [4; 8] [8; 4] 3 None = Ok d
    /\ YNetDecoder.forward_skips d
         [mkShape 1 4 8 8; mkShape 1 8 4 4; mkShape 1 8 2 2] = Ok (y, skips)
    /\ skips = [mkShape 1 8 4 4; mkShape 1 4 8 8]
    /\ dimC y = 3 /\ dimH y = 8 /\ dimW y = 8.
Proof.
  assert (He : valid_channels [4; 8]) by (split; [discriminate | repeat constructor]).
  assert (Hd : valid_channels [8; 4]) by (split; [discriminate | repeat constructor]).
  assert (Hm : matching_pyramid (adjusted [4; 8] None)
                 [mkShape 1 4 8 8; mkShape 1 8 4 4; mkShape 1 8 2 2]).
  { split; [reflexivity|]. simpl. repeat split; lia. }
  assert (Hh : halvable [8; 4]) by (repeat constructor).
  assert (Ho : 0 < 3) by lia.
  destruct (decoder_reads_skips_to_finest [4; 8] [8; 4] 3 None _ He Hd Hh Ho
              eq_refl Hm)
    as (d & y & skips & H1 & H2 & _ & H3 & _ & H4 & H5 & H6).
  exists d, y, skips. repeat split; assumption.
Defined.

(** C2 fails as stated under the invariant of the specification,
    [len(decoder_channels) = len(encoder_channels) - 1]: the decoder then
    never reads the finest entry of the encoder's pyramid, and its output
    has the resolution of the second entry. *)
Lemma decoder_spec_invariant_misses_finest :
  let enc := [4; 8] in
  let dec := [8] in
  valid_channels enc /\ valid_channels dec
  /\ length dec = length enc - 1
  /\ (e <- YNetEncoder.init 4 enc ;;
      features <- YNetEncoder.forward e (mkShape 1 4 8 8) ;;
      d <- YNetDecoder.init enc dec 3 None ;;
      r <- YNetDecoder.forward_skips d features ;;
      Ok (features, fst r, snd r))
     = Ok ([mkShape 1 4 8 8; mkShape 1 8 4 4; mkShape 1 8 2 2],
           mkShape 1 3 4 4,
           [mkShape 1 8 4 4]).
Proof.
  cbv zeta. split; [split; [discriminate | repeat constructor]|].
  split; [split; [discriminate | repeat constructor]|].
  split; [reflexivity|]. vm_compute. reflexivity.
Qed.

(** ** C3: channel lists of mismatched lengths *)

(** C3, as amended.  The constructor of the decoder does not compare the
    lengths of its channel lists: from any two non-empty lists it builds
    a decoder, with one upsample convolution per decoder channel and
    [min(len(encoder_channels), len(decoder_channels))] fusion blocks
    ([zip] drops what exceeds the shorter list). *)
Theorem decoder_init_accepts_any_lengths :
  forall (enc dec : list nat) (out : nat) (traj : option nat),
    enc <> [] -> dec <> [] ->
    exists d : YNetDecoder.t,
      YNetDecoder.init enc dec out traj = Ok d
      /\ length (YNetDecoder.decoder d) = Nat.min (length enc) (length dec)
      /\ length (YNetDecoder.upsample_conv d) = length dec.
Proof. exact DecoderFacts.decoder_init_ok. Qed.

Lemma decoder_init_accepts_any_lengths_witness :
  exists d : YNetDecoder.t,
    YNetDecoder.init default_encoder_channels [64; 32] 12 None = Ok d
    /\ length (YNetDecoder.decoder d) = 2
    /\ length (YNetDecoder.upsample_conv d) = 2.
Proof.
  apply (decoder_init_accepts_any_lengths default_encoder_channels [64; 32] 12 None);
    discriminate.
Defined.

(** C3 fails as stated: the default configuration of [get_ynet], whose
    channel lists both have length 5, is accepted by the constructors. *)
Lemma default_configuration_accepted :
  length default_decoder_channels <> length default_encoder_channels - 1
  /\ is_ok (YNetDecoder.init default_encoder_channels default_decoder_channels
                             12 None) = true
  /\ is_ok (get_ynet (fun _ => false) 8 12) = true.
Proof. repeat split. discriminate. Qed.

(** ** C7: semantic classes without a backbone *)

(** C7, as amended.  With no segmentation backbone configured the
    top-level constructor succeeds whatever [semantic_classes] is: the
    backbone is the identity module, and the encoder input is sized
    [semantic_classes + obs_len]. *)
Theorem no_backbone_is_identity :
  forall (torch_load : string -> bool) (obs_len pred_len : nat)
         (use_features_only : bool) (semantic_classes : nat)
         (enc dec : list nat) (waypoints : nat),
    enc <> [] -> dec <> [] ->
    exists m : YNetTorch.t,
      YNetTorch.init torch_load obs_len pred_len None use_features_only
                     semantic_classes enc dec waypoints = Ok m
      /\ YNetTorch.semantic_segmentation m = Identity
      /\ YNetTorch.encoder_in_channels m = Some (semantic_classes + obs_len).
Proof.
  intros torch_load obs pred ufo sc enc dec wp Henc Hdec.
  destruct (ModelFacts.model_init_ok torch_load obs pred None ufo sc enc dec wp
              Identity sc eq_refl Henc Hdec) as (m & Hm & Hb & Hin & _).
  exists m. auto.
Qed.

Lemma no_backbone_is_identity_witness :
  exists m : YNetTorch.t,
    YNetTorch.init (fun _ => false) 8 12 None false 6
                   default_encoder_channels default_decoder_channels 1 = Ok m
    /\ YNetTorch.semantic_segmentation m = Identity
    /\ YNetTorch.encoder_in_channels m = Some (6 + 8).
Proof.
  apply (no_backbone_is_identity (fun _ => false) 8 12 false 6
           default_encoder_channels default_decoder_channels 1);
    discriminate.
Defined.

(** C7 fails as stated: six semantic classes and no backbone build a
    model, with the identity in place of the backbone. *)
Lemma semantic_classes_without_backbone_accepted :
  0 < 6
  /\ exists m : YNetTorch.t,
      YNetTorch.init (fun _ => false) 8 12 None false 6
                     default_encoder_channels default_decoder_channels 1 = Ok m
      /\ YNetTorch.semantic_segmentation m = Identity.
Proof.
  split; [repeat constructor|]. eexists. split; reflexivity.
Qed.

(** ** C8: the channel count of features-only mode *)

(** C8, as amended.  When features-only mode is selected and a
    segmentation backbone is configured (and loads), the encoder input is
    sized with 16 semantic channels whatever [semantic_classes] is, and the
    head of the backbone is the identity; when no backbone is configured,
    [semantic_classes] is used as passed, features-only or not.  The
    constructor has no input data to depend on. *)
Theorem features_only_channels :
  forall (torch_load : string -> bool) (obs_len pred_len : nat)
         (semantic_classes : nat) (enc dec : list nat) (waypoints : nat),
    enc <> [] -> dec <> [] ->
    (forall fp : string,
        torch_load fp = true ->
        exists m : YNetTorch.t,
          YNetTorch.init torch_load obs_len pred_len (Some fp) true
                         semantic_classes enc dec waypoints = Ok m
          /\ YNetTorch.semantic_segmentation m = Segmenter fp IdentityHead
          /\ YNetTorch.encoder_in_channels m = Some (16 + obs_len))
    /\ (forall use_features_only : bool,
        exists m : YNetTorch.t,
          YNetTorch.init torch_load obs_len pred_len None use_features_only
                         semantic_classes enc dec waypoints = Ok m
          /\ YNetTorch.encoder_in_channels m = Some (semantic_classes + obs_len)).
Proof.
  intros torch_load obs pred sc enc dec wp Henc Hdec. split.
  - intros fp Hload.
    destruct (ModelFacts.model_init_ok torch_load obs pred (Some fp) true sc enc dec wp
                (Segmenter fp IdentityHead) 16 (conj Hload eq_refl) Henc Hdec)
      as (m & Hm & Hb & Hin & _).
    exists m. auto.
  - intros ufo.
    destruct (ModelFacts.model_init_ok torch_load obs pred None ufo sc enc dec wp
                Identity sc eq_refl Henc Hdec) as (m & Hm & Hb & Hin & _).
    exists m. auto.
Qed.

Lemma features_only_channels_witness :
  (exists m : YNetTorch.t,
      YNetTorch.init (fun _ => true) 8 12 (Some "segmentation.pt"%string) true 6
                     default_encoder_channels default_decoder_channels 1 = Ok m
      /\ YNetTorch.semantic_segmentation m
         = Segmenter "segmentation.pt"%string IdentityHead
      /\ YNetTorch.encoder_in_channels m = Some (16 + 8))
  /\ (exists m : YNetTorch.t,
      YNetTorch.init (fun _ => true) 8 12 None true 6
                     default_encoder_channels default_decoder_channels 1 = Ok m
      /\ YNetTorch.encoder_in_channels m = Some (6 + 8)).
Proof.
  assert (He : default_encoder_channels <> []) by discriminate.
  assert (Hd : default_decoder_channels <> []) by discriminate.
  destruct (features_only_channels (fun _ => true) 8 12 6
              default_encoder_channels default_decoder_channels 1 He Hd)
    as [Hfp Hnone].
  split; [apply (Hfp "segmentation.pt"%string eq_refl) | apply (Hnone true)].
Defined.

(** C8 fails as stated: features-only mode without a backbone sizes the
    encoder input with the [semantic_classes] passed in (6 + 8 channels),
    not with 16. *)
Lemma features_only_without_backbone :
  exists m : YNetTorch.t,
    YNetTorch.init (fun _ => true) 8 12 None true 6
                   default_encoder_channels default_decoder_channels 1 = Ok m
    /\ YNetTorch.encoder_in_channels m = Some 14
    /\ YNetTorch.encoder_in_channels m <> Some (16 + 8).
Proof.
  eexists. split; [reflexivity|]. split; [reflexivity | discriminate].
Qed.

(** ** C9: the trajectory decoder *)

(** C9.  For a conditioning width [w > 0] the trajectory decoder is the
    goal decoder of the encoder channels increased by [w]: the two
    constructors return the same thing, so that every layer (center block,
    upsample convolutions, fusion blocks, predictor) has the same input
    and output channel counts, and [forward] is the same function on every
    pyramid. *)
Theorem traj_decoder_is_goal_decoder_widened :
  forall (enc dec : list nat) (out w : nat),
    0 < w ->
    YNetDecoder.init enc dec out (Some w)
    = YNetDecoder.init (map (fun channel => channel + w) enc) dec out None
    /\ forall d : YNetDecoder.t,
        YNetDecoder.init enc dec out (Some w) = Ok d ->
        exists g : YNetDecoder.t,
          YNetDecoder.init (map (fun channel => channel + w) enc) dec out None = Ok g
          /\ YNetDecoder.center d = YNetDecoder.center g
          /\ YNetDecoder.upsample_conv d = YNetDecoder.upsample_conv g
          /\ YNetDecoder.decoder d = YNetDecoder.decoder g
          /\ YNetDecoder.predictor d = YNetDecoder.predictor g
          /\ forall features : list Shape,
              YNetDecoder.forward d features = YNetDecoder.forward g features.
Proof.
  intros enc dec out w Hw.
  assert (Heq : YNetDecoder.init enc dec out (Some w)
                = YNetDecoder.init (map (fun channel => channel + w) enc) dec out None).
  { unfold YNetDecoder.init. cbn [YNetDecoder.truthy YNetDecoder.traj_width].
    destruct (Nat.eqb_spec w 0); [lia | reflexivity]. }
  split; [exact Heq|].
  intros d Hd. exists d. rewrite <- Heq. repeat split. exact Hd.
Qed.

Lemma traj_decoder_is_goal_decoder_widened_witness :
  YNetDecoder.init default_encoder_channels default_decoder_channels 12 (Some 1)
  = YNetDecoder.init [33; 33; 65; 65; 65] default_decoder_channels 12 None.
Proof.
  apply (traj_decoder_is_goal_decoder_widened
           default_encoder_channels default_decoder_channels 12 1).
  repeat constructor.
Defined.

(** ** C6: input extents and the skip concatenations *)




(** ** C4: soft-argmax of a one-hot map *)

(** C4.  When channel [k] of image [b] carries all its mass, 1, at row
    [i] and column [j] of its [h] x [w] grid and 0 elsewhere,
    [softargmax_on_softmax_map] returns for that channel the pair
    [(j, i)]: the column index first, then the row index. *)
Theorem softargmax_one_hot :
  forall (x : Tensor4) (n c h w b k i j : nat),
    has_shape x n c h w ->
    b < n -> k < c -> i < h -> j < w ->
    (forall i' j' : nat,
        i' < h -> j' < w ->
        at4 x b k i' j' = if (i' =? i) && (j' =? j) then 1%R else 0%R) ->
    nth k (nth b (softargmax_on_softmax_map x) []) [] = [INR j; INR i].
Proof.
  intros x n c h w b k i j Hx Hb Hk Hi Hj Hhot.
  rewrite TensorFacts.softargmax_unfold.
  rewrite (TensorFacts.nth_map_map _ [] x n c h w b k Hx Hb Hk).
  rewrite (TensorFacts.create_meshgrid_shape x n c h w)
    by (apply TensorFacts.size4_has_shape; [exact Hx | lia | lia | lia]).
  cbn [fst snd].
  destruct (TensorFacts.has_shape_slice x n c h w b k Hx Hb Hk) as [Hh Hw].
  rewrite (GridFacts.grid_ext (slice x b k) h w
             (fun i' j' => if (i' =? i) && (j' =? j) then 1%R else 0%R)
             Hh Hw Hhot).
  rewrite (GridFacts.dot_grid (fun _ j' => INR j')).
  rewrite (GridFacts.dot_grid (fun i' _ => INR i')).
  f_equal; [|f_equal].
  - rewrite (map_ext _ (fun i' => if i' =? i then INR j else 0%R))
      by (intros i'; apply (GridFacts.sum_one_hot_row INR (i' =? i) j w Hj)).
    apply GridFacts.sum_one_hot_rows. exact Hi.
  - rewrite (map_ext _ (fun i' => if i' =? i then INR i' else 0%R))
      by (intros i';
          apply (GridFacts.sum_one_hot_row (fun _ => INR i') (i' =? i) j w Hj)).
    rewrite (GridFacts.sum_delta INR). cbn [Nat.leb andb Nat.add].
    destruct (Nat.ltb_spec i h); [reflexivity | lia].
Qed.

Lemma softargmax_one_hot_witness :
  nth 0 (nth 0 (softargmax_on_softmax_map
                  [[[[0; 0; 0]; [0; 0; 1]]]]%R) []) []
  = [INR 2; INR 1].
Proof.
  apply (softargmax_one_hot [[[[0; 0; 0]; [0; 0; 1]]]]%R 1 1 2 3 0 0 1 2).
  - split; [reflexivity|]. repeat constructor.
  - lia.
  - lia.
  - lia.
  - lia.
  - intros [|[|i']] [|[|[|j']]] Hi Hj; try lia; reflexivity.
Defined.

(** ** C10: the shape of the coordinates *)

(** C10, as amended.  On a batch of shape [n] x [c] x [h] x [w],
    [softargmax_on_softmax_map] returns a tensor of shape [n] x [c] x 2,
    one coordinate pair per channel; with a single channel the shape is
    [n] x 1 x 2, the channel axis is kept. *)
Theorem softargmax_shape :
  forall (x : Tensor4) (n c h w : nat),
    has_shape x n c h w ->
    length (softargmax_on_softmax_map x) = n
    /\ Forall (fun img => length img = c /\ Forall (fun pt => length pt = 2) img)
              (softargmax_on_softmax_map x)
    /\ (0 < n -> 0 < c -> size3 (softargmax_on_softmax_map x) = [n; c; 2]).
Proof.
  intros x n c h w [Hn Hall].
  rewrite TensorFacts.softargmax_unfold.
  split; [rewrite length_map; exact Hn|]. split.
  - rewrite Forall_map. apply (Forall_impl _ (P := fun img =>
      length img = c
      /\ Forall (fun ch => length ch = h /\ Forall (fun row => length row = w) ch) img));
      [|exact Hall].
    intros img [Hc _]. split; [rewrite length_map; exact Hc|].
    rewrite Forall_map. apply Forall_forall. intros ch _. reflexivity.
  - intros Hn0 Hc0. destruct x as [|img x]; [cbn [length] in Hn; lia|].
    inversion Hall as [|? ? [Hc _] _]; subst.
    destruct img as [|ch img]; [cbn [length] in Hc0; lia|].
    unfold size3. cbn [map hd length]. rewrite !length_map. reflexivity.
Qed.

Lemma softargmax_shape_witness :
  size3 (softargmax_on_softmax_map [[[[0; 1]; [0; 0]]; [[1; 0]; [0; 0]]]]%R)
  = [1; 2; 2].
Proof.
  apply (softargmax_shape [[[[0; 1]; [0; 0]]; [[1; 0]; [0; 0]]]]%R 1 2 2 2).
  - split; [reflexivity|]. repeat constructor.
  - lia.
  - lia.
Defined.

(** C10 fails as stated for a single channel: the result of a
    1 x 1 x 2 x 2 batch has the three extents 1 x 1 x 2, not the two
    extents 1 x 2. *)
Lemma softargmax_single_channel_keeps_axis :
  has_shape [[[[0; 1]; [0; 0]]]]%R 1 1 2 2
  /\ size3 (softargmax_on_softmax_map [[[[0; 1]; [0; 0]]]]%R) = [1; 1; 2]
  /\ size3 (softargmax_on_softmax_map [[[[0; 1]; [0; 0]]]]%R) <> [1; 2].
Proof.
  split; [split; [reflexivity | repeat constructor]|].
  split; [reflexivity | discriminate].
Qed.

(** ** C5: the spatial softmax *)



(** * Further properties of the code *)

(** ** The encoder, case by case *)

Module EncoderCases.
Import YNetEncoder.

Lemma first_block_mismatch (cin c0 : nat) (x : Shape) :
  0 < c0 ->
  dimC x <> cin ->
  sequential_forward (first_block cin c0) x
  = Err (ConvChannelMismatch cin (dimC x)).
Proof.
  intros Hout HC. unfold first_block. cbn [sequential_forward layer_forward].
  unfold conv2d_forward, conv3x3. cbn [in_channels out_channels].
  destruct (Nat.eqb_spec c0 0); [lia|].
  destruct (Nat.eqb_spec (dimC x) cin); [contradiction | reflexivity].
Qed.

(** A convolution that returns has an output channel, and so have the
    stages of an encoder whose [forward] returns. *)
Lemma conv2d_forward_ok_out (c : Conv2d) (x y : Shape) :
  conv2d_forward c x = Ok y -> 0 < out_channels c.
Proof.
  unfold conv2d_forward.
  destruct (Nat.eqb_spec (out_channels c) 0); [discriminate|]. intros _. lia.
Qed.

Lemma first_block_ok_out (cin c0 : nat) (x y : Shape) :
  sequential_forward (first_block cin c0) x = Ok y -> 0 < c0.
Proof.
  unfold first_block. cbn [sequential_forward layer_forward]. intros H.
  apply bind_ok in H as (z & Hz & _).
  apply conv2d_forward_ok_out in Hz. exact Hz.
Qed.

Lemma block_ok_out (cin cout : nat) (x y : Shape) :
  sequential_forward (block cin cout) x = Ok y -> 0 < cout.
Proof.
  unfold block. cbn [sequential_forward layer_forward]. intros H.
  apply bind_ok in H as (z & _ & H). apply bind_ok in H as (z' & Hz & _).
  apply conv2d_forward_ok_out in Hz. exact Hz.
Qed.

Lemma run_blocks_ok_positive (rest : list nat) :
  forall (c : nat) (x : Shape) (fs : list Shape),
    run_stages (blocks_of (c :: rest) ++ [last_block]) x = Ok fs ->
    Forall (fun c' => 0 < c') rest.
Proof.
  induction rest as [|c' rest IH]; intros c x fs H; [constructor|].
  change (blocks_of (c :: c' :: rest))
    with (block c c' :: blocks_of (c' :: rest)) in H.
  cbn [app] in H. rewrite EncoderFacts.run_stages_cons in H.
  apply bind_ok in H as (y & Hy & H). apply bind_ok in H as (r & Hr & _).
  constructor; [exact (block_ok_out _ _ _ _ Hy) | exact (IH c' y r Hr)].
Qed.

Lemma forward_ok_positive (cin c0 : nat) (rest : list nat) (e : t) (x : Shape)
      (fs : list Shape) :
  init cin (c0 :: rest) = Ok e ->
  forward e x = Ok fs ->
  Forall (fun c => 0 < c) (c0 :: rest).
Proof.
  intros Hinit Hfwd. rewrite EncoderFacts.init_stages in Hinit.
  assert (He : e = mk (first_block cin c0
                       :: blocks_of (c0 :: rest) ++ [last_block]))
    by congruence.
  subst e. unfold forward in Hfwd. cbn [stages] in Hfwd.
  rewrite EncoderFacts.run_stages_cons in Hfwd.
  apply bind_ok in Hfwd as (y & Hy & H). apply bind_ok in H as (r & Hr & _).
  constructor; [exact (first_block_ok_out _ _ _ _ Hy)|].
  exact (run_blocks_ok_positive rest c0 y r Hr).
Qed.

(** [forward] of a freshly built encoder on any input: the checks of the
    first convolution come first, then the max-pools decide. *)
Lemma forward_cases (cin c0 : nat) (rest : list nat) (e : t) (x : Shape) :
  Forall (fun c => 0 < c) (c0 :: rest) ->
  init cin (c0 :: rest) = Ok e ->
  forward e x
  = if negb (dimC x =? cin) then Err (ConvChannelMismatch cin (dimC x))
    else if (dimH x =? 0) || (dimW x =? 0) then Err ConvKernelTooLarge
    else if (2 ^ S (length rest) <=? dimH x) && (2 ^ S (length rest) <=? dimW x)
    then Ok (mkShape (dimN x) c0 (dimH x) (dimW x)
             :: below (dimN x) c0 (dimH x) (dimW x) rest)
    else Err PoolOutputTooSmall.
Proof.
  intros Hpos Hinit.
  pose proof (Forall_inv Hpos) as Hc0. cbn beta in Hc0.
  pose proof (Forall_inv_tail Hpos) as Hrest.
  destruct (Nat.eqb_spec (dimC x) cin) as [HC|HC]; cbn [negb].
  - destruct (EncoderFacts.encoder_forward_built cin c0 rest e x Hpos Hinit HC)
      as [Hbig _].
    rewrite EncoderFacts.init_stages in Hinit.
    assert (He : e = mk (first_block cin c0
                         :: blocks_of (c0 :: rest) ++ [last_block]))
      by congruence.
    destruct (Nat.eqb_spec (dimH x) 0) as [H0|H0]; cbn [orb].
    { subst e. unfold forward. cbn [stages].
      rewrite EncoderFacts.run_stages_cons.
      rewrite EncoderFacts.first_block_small by auto. reflexivity. }
    destruct (Nat.eqb_spec (dimW x) 0) as [W0|W0].
    { subst e. unfold forward. cbn [stages].
      rewrite EncoderFacts.run_stages_cons.
      rewrite EncoderFacts.first_block_small by auto. reflexivity. }
    destruct (Nat.leb_spec (2 ^ S (length rest)) (dimH x)) as [HH|HH];
      [destruct (Nat.leb_spec (2 ^ S (length rest)) (dimW x)) as [HW|HW]|];
      cbn [andb].
    + apply Hbig; assumption.
    + subst e. unfold forward. cbn [stages].
      rewrite EncoderFacts.run_stages_cons.
      rewrite EncoderFacts.first_block_forward by (try assumption; lia).
      cbn [bind]. rewrite EncoderFacts.run_blocks by (try assumption; reflexivity).
      cbn [dimN dimH dimW].
      destruct (Nat.leb_spec (2 ^ S (length rest)) (dimW x)); [lia|].
      rewrite andb_false_r. reflexivity.
    + subst e. unfold forward. cbn [stages].
      rewrite EncoderFacts.run_stages_cons.
      rewrite EncoderFacts.first_block_forward by (try assumption; lia).
      cbn [bind]. rewrite EncoderFacts.run_blocks by (try assumption; reflexivity).
      cbn [dimN dimH dimW].
      destruct (Nat.leb_spec (2 ^ S (length rest)) (dimH x)); [lia|].
      reflexivity.
  - rewrite EncoderFacts.init_stages in Hinit.
    assert (He : e = mk (first_block cin c0
                         :: blocks_of (c0 :: rest) ++ [last_block]))
      by congruence.
    subst e. unfold forward. cbn [stages].
    rewrite EncoderFacts.run_stages_cons.
    rewrite first_block_mismatch by assumption. reflexivity.
Qed.

Lemma pow2_pos (n : nat) : 1 <= 2 ^ n.
Proof. pose proof (Nat.pow_nonzero 2 n). lia. Qed.

(** What [forward] returns when it returns. *)
Lemma forward_ok_inv (cin c0 : nat) (rest : list nat) (e : t) (x : Shape)
      (fs : list Shape) :
  init cin (c0 :: rest) = Ok e ->
  forward e x = Ok fs ->
  dimC x = cin
  /\ 2 ^ S (length rest) <= dimH x /\ 2 ^ S (length rest) <= dimW x
  /\ fs = mkShape (dimN x) c0 (dimH x) (dimW x)
          :: below (dimN x) c0 (dimH x) (dimW x) rest.
Proof.
  intros Hinit Hfwd.
  pose proof (forward_ok_positive cin c0 rest e x fs Hinit Hfwd) as Hpos.
  rewrite (forward_cases cin c0 rest e x Hpos Hinit) in Hfwd.
  destruct (Nat.eqb_spec (dimC x) cin) as [HC|HC]; cbn [negb] in Hfwd;
    [|discriminate].
  destruct ((dimH x =? 0) || (dimW x =? 0)); [discriminate|].
  destruct (Nat.leb_spec (2 ^ S (length rest)) (dimH x)) as [HH|HH];
    [|discriminate].
  destruct (Nat.leb_spec (2 ^ S (length rest)) (dimW x)) as [HW|HW];
    [|discriminate].
  cbn [andb] in Hfwd. injection Hfwd as <-. auto.
Qed.

Lemma pyramid_entry (rest : list nat) (x : Shape) (c0 k : nat) (d : Shape) :
  k <= S (length rest) ->
  nth k (mkShape (dimN x) c0 (dimH x) (dimW x)
         :: below (dimN x) c0 (dimH x) (dimW x) rest) d
  = mkShape (dimN x) (nth k (pyramid_channels (c0 :: rest)) 0)
            (dimH x / 2 ^ k) (dimW x / 2 ^ k).
Proof.
  intros Hk.
  set (P := mkShape (dimN x) c0 (dimH x) (dimW x)
            :: below (dimN x) c0 (dimH x) (dimW x) rest).
  destruct (PyramidFacts.pyramid_dims rest x c0 k d Hk) as (HN & HH & HW).
  fold P in HN, HH, HW.
  assert (HC : dimC (nth k P d) = nth k (pyramid_channels (c0 :: rest)) 0).
  { assert (Hmap : map dimC P = pyramid_channels (c0 :: rest)).
    { unfold P. cbn [map dimC]. rewrite PyramidFacts.map_dimC_below. reflexivity. }
    rewrite <- Hmap.
    assert (Hlen : k < length P).
    { unfold P. cbn [length]. rewrite EncoderFacts.length_below. lia. }
    rewrite (nth_indep (map dimC P) 0 (dimC d)) by (rewrite length_map; exact Hlen).
    symmetry. apply map_nth. }
  destruct (nth k P d) as [n' c' h' w']. cbn [dimN dimC dimH dimW] in *.
  subst. reflexivity.
Qed.

End EncoderCases.





(** X3.  The errors of the [forward] of an encoder over a valid channel
    list: a wrong channel count is reported by the first convolution
    whatever the size of the input; an image without pixels is refused by
    that convolution; and an image with pixels but less than
    [2 ^ len(channels)] of them along an axis makes a max-pool raise. *)
Theorem encoder_errors :
  forall (cin : nat) (channels : list nat) (e : YNetEncoder.t) (x : Shape),
    valid_channels channels ->
    YNetEncoder.init cin channels = Ok e ->
    (dimC x <> cin ->
     YNetEncoder.forward e x = Err (ConvChannelMismatch cin (dimC x)))
    /\ (dimC x = cin -> dimH x = 0 \/ dimW x = 0 ->
        YNetEncoder.forward e x = Err ConvKernelTooLarge)
    /\ (dimC x = cin -> 1 <= dimH x -> 1 <= dimW x ->
        dimH x < 2 ^ length channels \/ dimW x < 2 ^ length channels ->
        YNetEncoder.forward e x = Err PoolOutputTooSmall).
Proof.
  intros cin channels e x [_ Hpos] Hinit.
  destruct channels as [|c0 rest]; [discriminate|].
  rewrite (EncoderCases.forward_cases cin c0 rest e x Hpos Hinit).
  cbn [length]. split; [|split].
  - intros HC. destruct (Nat.eqb_spec (dimC x) cin); [contradiction|reflexivity].
  - intros HC H0. rewrite HC, Nat.eqb_refl. cbn [negb].
    destruct H0 as [H0|H0]; rewrite H0; [|rewrite orb_true_r]; reflexivity.
  - intros HC HH HW Hs. rewrite HC, Nat.eqb_refl. cbn [negb].
    destruct (Nat.eqb_spec (dimH x) 0); [lia|].
    destruct (Nat.eqb_spec (dimW x) 0); [lia|]. cbn [orb].
    destruct (Nat.leb_spec (2 ^ S (length rest)) (dimH x));
      destruct (Nat.leb_spec (2 ^ S (length rest)) (dimW x));
      cbn [andb]; try reflexivity; lia.
Qed.

Lemma encoder_errors_witness :
  (e <- YNetEncoder.init 8 [32; 64] ;; YNetEncoder.forward e (mkShape 1 3 64 64))
  = Err (ConvChannelMismatch 8 3)
  /\ (e <- YNetEncoder.init 8 [32; 64] ;; YNetEncoder.forward e (mkShape 1 8 0 64))
     = Err ConvKernelTooLarge
  /\ (e <- YNetEncoder.init 8 [32; 64] ;; YNetEncoder.forward e (mkShape 1 8 3 64))
     = Err PoolOutputTooSmall.
Proof.
  destruct (YNetEncoder.init 8 [32; 64]) as [e|] eqn:He; [|discriminate].
  assert (Hv : valid_channels [32; 64])
    by (split; [discriminate | repeat constructor]).
  cbn [bind]. split; [|split].
  - apply (encoder_errors 8 [32; 64] e (mkShape 1 3 64 64) Hv He). discriminate.
  - apply (encoder_errors 8 [32; 64] e (mkShape 1 8 0 64) Hv He);
      [reflexivity | left; reflexivity].
  - apply (encoder_errors 8 [32; 64] e (mkShape 1 8 3 64) Hv He);
      [reflexivity | vm_compute; lia | vm_compute; lia | left; vm_compute; lia].
Defined.

(** ** The constructors, case by case *)

(** X4.  The top-level constructor builds a model exactly when the
    backbone can be loaded (or none is asked for) and both channel lists
    are non-empty.  A backbone that does not load is reported first;
    otherwise an empty channel list is an [IndexError]. *)
Theorem model_init_outcomes :
  forall (torch_load : string -> bool) (obs_len pred_len : nat)
         (fp : option string) (use_features_only : bool) (semantic_classes : nat)
         (enc dec : list nat) (waypoints : nat),
    let built := YNetTorch.init torch_load obs_len pred_len fp use_features_only
                                semantic_classes enc dec waypoints in
    let loads := match fp with Some p => torch_load p | None => true end in
    (loads = false -> built = Err LoadError)
    /\ (loads = true -> enc = [] \/ dec = [] -> built = Err IndexError)
    /\ ((exists m : YNetTorch.t, built = Ok m)
        <-> loads = true /\ enc <> [] /\ dec <> []).
Proof.
  intros torch_load obs pred fp ufo sc enc dec wp built loads.
  assert (Hload : loads = false -> built = Err LoadError).
  { unfold loads, built, YNetTorch.init. destruct fp as [p|]; [|discriminate].
    intros ->. reflexivity. }
  assert (Hempty : loads = true -> enc = [] \/ dec = [] -> built = Err IndexError).
  { unfold loads, built, YNetTorch.init. intros Hl Hnil.
    assert (Hbs : exists bs,
               match fp with
               | Some p =>
                   if torch_load p then
                     if ufo then Ok (Segmenter p IdentityHead, 16)
                     else Ok (Segmenter p PretrainedHead, sc)
                   else Err LoadError
               | None => Ok (Identity, sc)
               end = Ok bs).
    { destruct fp as [p|]; [rewrite Hl; destruct ufo|]; eexists; reflexivity. }
    destruct Hbs as [bs ->]. cbn [bind].
    destruct enc as [|c0 rest]; [reflexivity|].
    rewrite EncoderFacts.init_stages. cbn [bind].
    destruct Hnil as [Hnil|Hnil]; [discriminate|]. subst dec.
    rewrite DecoderFacts.init_unfold.
    destruct (rev (adjusted (c0 :: rest) None)); reflexivity. }
  split; [exact Hload|]. split; [exact Hempty|]. split.
  - intros [m Hm]. destruct loads eqn:Hl.
    + split; [reflexivity|]. split; intros Hnil;
        rewrite (Hempty eq_refl) in Hm by auto; discriminate.
    + rewrite (Hload eq_refl) in Hm. discriminate.
  - intros (Hl & Henc & Hdec).
    destruct fp as [p|].
    + destruct (ModelFacts.model_init_ok torch_load obs pred (Some p) ufo sc
                  enc dec wp
                  (fst (if ufo then (Segmenter p IdentityHead, 16)
                        else (Segmenter p PretrainedHead, sc)))
                  (snd (if ufo then (Segmenter p IdentityHead, 16)
                        else (Segmenter p PretrainedHead, sc))))
        as (m & Hm & _); try assumption.
      * split; [exact Hl|]. destruct ufo; reflexivity.
      * exists m. exact Hm.
    + destruct (ModelFacts.model_init_ok torch_load obs pred None ufo sc
                  enc dec wp Identity sc eq_refl Henc Hdec) as (m & Hm & _).
      exists m. exact Hm.
Qed.

Lemma model_init_outcomes_witness :
  YNetTorch.init (fun _ => false) 8 12 (Some "missing.pt"%string) true 0
                 [] [] 1 = Err LoadError
  /\ YNetTorch.init (fun _ => false) 8 12 None false 0 [32; 64] [] 1
     = Err IndexError
  /\ exists m : YNetTorch.t,
      YNetTorch.init (fun _ => false) 8 12 None false 0 [32; 64] [64; 32] 1
      = Ok m.
Proof.
  split; [|split].
  - apply (model_init_outcomes (fun _ => false) 8 12 (Some "missing.pt"%string)
             true 0 [] [] 1). reflexivity.
  - apply (model_init_outcomes (fun _ => false) 8 12 None false 0 [32; 64] [] 1);
      [reflexivity | right; reflexivity].
  - apply (model_init_outcomes (fun _ => false) 8 12 None false 0
             [32; 64] [64; 32] 1).
    split; [reflexivity|]. split; discriminate.
Defined.

(** ** A decoder shorter than the encoder *)

Module DecoderTruncation.
Import YNetDecoder.

Lemma adjusted_skipn (k : nat) (enc : list nat) (traj : option nat) :
  adjusted (skipn k enc) traj = skipn k (adjusted enc traj).
Proof.
  unfold adjusted. destruct (truthy traj); [|reflexivity].
  symmetry. apply skipn_map.
Qed.

Lemma last_skipn (k : nat) :
  forall (l : list nat) (d : nat), k < length l -> last (skipn k l) d = last l d.
Proof.
  induction k as [|k IH]; intros l d Hk; [reflexivity|].
  destruct l as [|a l]; [cbn [length] in Hk; lia|].
  cbn [length] in Hk. rewrite skipn_cons, IH by lia.
  destruct l as [|b l]; [cbn [length] in Hk; lia | reflexivity].
Qed.

(** Encoder channels that no decoder stage is zipped with play no part
    in the decoder that is built. *)
Lemma init_truncate (enc dec : list nat) (out : nat) (traj : option nat) :
  dec <> [] -> length dec <= length enc ->
  init enc dec out traj
  = init (skipn (length enc - length dec) enc) dec out traj.
Proof.
  intros Hdec Hlen. rewrite !DecoderFacts.init_unfold, adjusted_skipn.
  set (A := adjusted enc traj).
  assert (HA : length A = length enc) by apply DecoderFacts.length_adjusted.
  assert (Hrev : rev (skipn (length enc - length dec) A)
                 = firstn (length dec) (rev A)).
  { rewrite firstn_rev, HA. reflexivity. }
  rewrite Hrev.
  destruct (rev A) as [|c es] eqn:E.
  { apply (f_equal (@length nat)) in E. rewrite length_rev, HA in E.
    destruct dec as [|d0 dec]; [contradiction|].
    cbn [length] in *. lia. }
  destruct dec as [|d0 dec]; [contradiction|].
  cbn [length firstn]. f_equal. f_equal.
  assert (HU : length (ups_out (c * 2) (d0 :: dec)) = S (length dec)).
  { unfold ups_out, ups_in.
    rewrite length_map, length_app, removelast_firstn_len, length_firstn.
    cbn [length]. lia. }
  rewrite (combine_firstn_r (c :: es) (ups_out (c * 2) (d0 :: dec))), HU.
  reflexivity.
Qed.

(** [zip] stops with the shortest list: skip features beyond the last
    fusion block are never looked at. *)
Lemma run_stages_firstn (mods : list Sequential) :
  forall (fs : list Shape) (ups : list Conv2d) (i : nat) (x : Shape),
    run_stages i x fs mods ups
    = run_stages i x (firstn (length mods) fs) mods ups.
Proof.
  induction mods as [|m mods IH]; intros fs ups i x.
  - destruct fs; reflexivity.
  - destruct fs as [|f fs]; [reflexivity|].
    destruct ups as [|u ups]; [reflexivity|].
    cbn [length firstn run_stages].
    destruct (interpolate 2 x) as [x1|]; [|reflexivity]. cbn [bind].
    destruct (conv2d_forward u x1) as [x2|]; [|reflexivity]. cbn [bind].
    destruct (cat_dim1 i x2 f) as [x3|]; [|reflexivity]. cbn [bind].
    destruct (sequential_forward m x3) as [x4|]; [|reflexivity]. cbn [bind].
    rewrite (IH fs ups (S i) x4). reflexivity.
Qed.

Lemma forward_skips_skipn (d : t) (features : list Shape) (k : nat) :
  length features = S (length (decoder d)) + k ->
  forward_skips d features = forward_skips d (skipn k features).
Proof.
  intros Hlen. unfold forward_skips.
  assert (Hrev : rev (skipn k features)
                 = firstn (S (length (decoder d))) (rev features)).
  { rewrite firstn_rev, Hlen. f_equal. f_equal. lia. }
  rewrite Hrev.
  destruct (rev features) as [|b rest]; [reflexivity|].
  cbn [firstn].
  destruct (sequential_forward (center d) b) as [x|]; [|reflexivity].
  cbn [bind].
  rewrite (run_stages_firstn (decoder d) rest). reflexivity.
Qed.

Lemma halves_down_skipn (k : nat) :
  forall features : list Shape,
    halves_down features -> k < length features ->
    halves_down (skipn k features).
Proof.
  induction k as [|k IH]; intros features Hh Hk; [exact Hh|].
  destruct features as [|f rest]; [contradiction|].
  cbn [length] in Hk. rewrite skipn_cons. apply IH; [|lia].
  destruct rest as [|g rest]; [cbn [length] in Hk; lia|].
  destruct Hh as (_ & _ & _ & Hrest). exact Hrest.
Qed.

Lemma hd_skipn (k : nat) (features : list Shape) (d : Shape) :
  hd d (skipn k features) = nth k features d.
Proof.
  rewrite <- (Nat.add_0_r k) at 2. rewrite <- nth_skipn.
  destruct (skipn k features); reflexivity.
Qed.

End DecoderTruncation.

(** X5.  A decoder over valid channel lists with no more decoder channels
    than encoder channels, every decoder channel but the last at least 2
    and a positive [output_len], on a pyramid of matching shapes: it reads
    the [len(decoder_channels)] coarsest entries above the bottleneck as
    skip connections, from coarse to fine, never looks at the finer ones,
    and returns [output_len] channels at the resolution of the pyramid
    entry of index [len(encoder_channels) - len(decoder_channels)]. *)
Theorem decoder_shorter_than_encoder :
  forall (enc dec : list nat) (out : nat) (traj : option nat)
         (features : list Shape),
    valid_channels enc -> valid_channels dec ->
    halvable dec -> 0 < out ->
    length dec <= length enc ->
    matching_pyramid (adjusted enc traj) features ->
    exists (d : YNetDecoder.t) (y : Shape) (skips : list Shape),
      YNetDecoder.init enc dec out traj = Ok d
      /\ YNetDecoder.forward_skips d features = Ok (y, skips)
      /\ skips = firstn (length dec) (tl (rev features))
      /\ dimC y = out
      /\ dimN y = dimN (nth (length enc - length dec) features y)
      /\ dimH y = dimH (nth (length enc - length dec) features y)
      /\ dimW y = dimW (nth (length enc - length dec) features y).
Proof.
  intros enc dec out traj features [Henc Hencpos] [Hdec Hdecpos] Hhalv Hout
         Hle [Hch Hhalf].
  set (k := length enc - length dec).
  assert (Hfeat : length features = S (length enc)).
  { apply (f_equal (@length nat)) in Hch.
    rewrite length_map in Hch. unfold pyramid_channels in Hch.
    rewrite length_app, DecoderFacts.length_adjusted in Hch.
    cbn [length] in Hch. lia. }
  assert (Hdec1 : 1 <= length dec) by (destruct dec; [contradiction | cbn; lia]).
  assert (Henc' : length (skipn k enc) = length dec)
    by (rewrite length_skipn; unfold k; lia).
  assert (Henc'ne : skipn k enc <> []).
  { intros Hnil. rewrite Hnil in Henc'. cbn [length] in Henc'. lia. }
  destruct (DecoderFacts.decoder_init_ok (skipn k enc) dec out traj Henc'ne Hdec)
    as (d & Hd & Hdl & _).
  rewrite Henc', Nat.min_id in Hdl.
  assert (Hinit : YNetDecoder.init enc dec out traj = Ok d).
  { rewrite (DecoderTruncation.init_truncate enc dec out traj Hdec Hle). exact Hd. }
  assert (Hskip : YNetDecoder.forward_skips d features
                  = YNetDecoder.forward_skips d (skipn k features)).
  { apply DecoderTruncation.forward_skips_skipn. rewrite Hdl, Hfeat. unfold k. lia. }
  assert (Hhalf' : halves_down (skipn k features)).
  { apply DecoderTruncation.halves_down_skipn; [exact Hhalf|]. unfold k. lia. }
  assert (Hch' : map dimC (skipn k features)
                 = pyramid_channels (adjusted (skipn k enc) traj)).
  { rewrite <- skipn_map, Hch. unfold pyramid_channels.
    rewrite DecoderTruncation.adjusted_skipn, skipn_app.
    rewrite DecoderTruncation.last_skipn
      by (rewrite DecoderFacts.length_adjusted; unfold k; lia).
    replace (k - length (adjusted enc traj)) with 0
      by (rewrite DecoderFacts.length_adjusted; unfold k; lia).
    reflexivity. }
  destruct (rev (skipn k features)) as [|b fs] eqn:Hrev.
  { apply (f_equal (@rev Shape)) in Hrev. rewrite rev_involutive in Hrev.
    rewrite Hrev in Hhalf'. contradiction. }
  destruct (DecoderFacts.halves_down_fits (skipn k features) Hhalf' b fs Hrev)
    as (Hnone & HbH & HbW).
  pose proof (DecoderFacts.decoder_forward_built (skipn k enc) dec out traj d
                (skipn k features) b fs
                (DecoderFacts.Forall_skipn _ k enc Hencpos) Hdecpos Hhalv Hout
                Hd (eq_sym Henc') Hrev Hch' HbH HbW)
    as Hfwd.
  rewrite Hnone in Hfwd.
  destruct (DecoderFacts.first_mismatch_none_last fs b Hnone) as (HlN & HlH & HlW).
  assert (Hhd : forall y, nth k features y = last fs b).
  { intros y. rewrite <- DecoderTruncation.hd_skipn.
    rewrite <- (last_rev (skipn k features) y), Hrev. apply last_cons. }
  assert (Hfs : fs = firstn (length dec) (tl (rev features))).
  { assert (Hr : rev (skipn k features)
                 = firstn (S (length dec)) (rev features)).
    { rewrite firstn_rev, Hfeat. reflexivity. }
    rewrite Hrev in Hr. destruct (rev features) as [|b' rest].
    - discriminate.
    - cbn [firstn tl] in *. congruence. }
  eexists d, _, fs. split; [exact Hinit|].
  split; [rewrite Hskip; exact Hfwd|]. split; [exact Hfs|].
  rewrite Hhd, HlN, HlH, HlW. cbn [dimN dimC dimH dimW]. auto.
Qed.

Lemma decoder_shorter_than_encoder_witness :
  exists (d : YNetDecoder.t) (y : Shape) (skips : list Shape),
    YNetDecoder.init [4; 8; 16] [8] 3 None = Ok d
    /\ YNetDecoder.forward_skips d
         [mkShape 1 4 16 16; mkShape 1 8 8 8; mkShape 1 16 4 4; mkShape 1 16 2 2]
       = Ok (y, skips)
    /\ skips = [mkShape 1 16 4 4]
    /\ dimC y = 3 /\ dimH y = 4 /\ dimW y = 4.
Proof.
  assert (Hm : matching_pyramid (adjusted [4; 8; 16] None)
                 [mkShape 1 4 16 16; mkShape 1 8 8 8;
                  mkShape 1 16 4 4; mkShape 1 16 2 2]).
  { split; [reflexivity|]. simpl. repeat split; lia. }
  assert (He : valid_channels [4; 8; 16])
    by (split; [discriminate | repeat constructor]).
  assert (Hd : valid_channels [8]) by (split; [discriminate | repeat constructor]).
  assert (Hh : halvable [8]) by constructor.
  assert (Ho : 0 < 3) by lia.
  destruct (decoder_shorter_than_encoder [4; 8; 16] [8] 3 None _
              He Hd Hh Ho ltac:(cbn; lia) Hm)
    as (d & y & skips & H1 & H2 & H3 & H4 & _ & H5 & H6).
  exists d, y, skips. repeat split; assumption.
Defined.

(** ** The trajectory decoder and its pyramid *)

Module TrajFacts.

(** The bottleneck and the skips of the encoder's pyramid, read from the
    coarse end. *)
Lemma rev_pyramid (rest : list nat) (x : Shape) (c0 : nat)
      (b : Shape) (fs : list Shape) :
  rev (mkShape (dimN x) c0 (dimH x) (dimW x)
       :: below (dimN x) c0 (dimH x) (dimW x) rest) = b :: fs ->
  length fs = S (length rest)
  /\ dimN b = dimN x
  /\ dimC b = last (c0 :: rest) 0
  /\ dimH b = dimH x / 2 ^ S (length rest)
  /\ dimW b = dimW x / 2 ^ S (length rest).
Proof.
  set (n := S (length rest)).
  set (P := mkShape (dimN x) c0 (dimH x) (dimW x)
            :: below (dimN x) c0 (dimH x) (dimW x) rest).
  intros Hrev.
  assert (HP : length P = S n).
  { unfold P. cbn [length]. rewrite EncoderFacts.length_below. reflexivity. }
  assert (Hfs : length fs = n).
  { apply (f_equal (@length Shape)) in Hrev. rewrite length_rev, HP in Hrev.
    cbn [length] in Hrev. lia. }
  assert (Hb : b = nth n P b).
  { replace n with (length P - 1) by lia.
    rewrite <- (rev_nth P b) by lia. rewrite Hrev. reflexivity. }
  pose proof (EncoderCases.pyramid_entry rest x c0 n b (Nat.le_refl _)) as He.
  fold P in He. rewrite <- Hb in He.
  split; [exact Hfs|]. rewrite He. cbn [dimN dimC dimH dimW].
  repeat split. unfold pyramid_channels.
  replace n with (length (c0 :: rest)) by reflexivity.
  apply nth_middle.
Qed.

(** With extents that are multiples of [2 ^ n] every skip fits. *)
Lemma rev_pyramid_fits (rest : list nat) (x : Shape) (c0 : nat)
      (b : Shape) (fs : list Shape) :
  rev (mkShape (dimN x) c0 (dimH x) (dimW x)
       :: below (dimN x) c0 (dimH x) (dimW x) rest) = b :: fs ->
  Nat.divide (2 ^ S (length rest)) (dimH x) ->
  Nat.divide (2 ^ S (length rest)) (dimW x) ->
  first_mismatch b fs = None.
Proof.
  intros Hrev HdH HdW.
  destruct (rev_pyramid rest x c0 b fs Hrev) as (Hfs & _).
  destruct (first_mismatch b fs) as [k|] eqn:E; [|reflexivity].
  destruct (PyramidFacts.first_mismatch_some fs b b k E) as (Hk & Hfalse & _).
  rewrite Hfs in Hk. rewrite <- Hrev in Hfalse.
  assert (Htrue : agrees (dimH x) (S (length rest)) k
                  /\ agrees (dimW x) (S (length rest)) k).
  { split; apply PyramidFacts.agrees_divide; assumption. }
  apply (PyramidFacts.fits_rev_pyramid rest x c0 k b Hk) in Htrue.
  congruence.
Qed.

Lemma first_mismatch_conditioned (w : nat) (fs : list Shape) :
  forall b : Shape,
    first_mismatch (with_conditioning w b) (map (with_conditioning w) fs)
    = first_mismatch b fs.
Proof.
  induction fs as [|f fs IH]; intros b; [reflexivity|].
  cbn [map first_mismatch]. rewrite IH. reflexivity.
Qed.

Lemma last_map_add (w : nat) (l : list nat) :
  l <> [] -> last (map (fun c => c + w) l) 0 = last l 0 + w.
Proof.
  intros Hl. destruct l as [|a l]; [contradiction|]. clear Hl.
  revert a. induction l as [|a' l IH]; intros a; [reflexivity|].
  change (last (map (fun c => c + w) (a' :: l)) 0 = last (a' :: l) 0 + w).
  apply IH.
Qed.

(** The channel counts of a conditioned pyramid are those the constructor
    of the trajectory decoder reckons with, also for a width of 0. *)
Lemma conditioned_channels (enc : list nat) (w : nat) (features : list Shape) :
  enc <> [] ->
  map dimC features = pyramid_channels enc ->
  map dimC (map (with_conditioning w) features)
  = pyramid_channels (adjusted enc (Some w)).
Proof.
  intros Henc Hch. rewrite map_map.
  rewrite (map_ext _ (fun f => dimC f + w)) by reflexivity.
  rewrite <- (map_map dimC (fun c => c + w)), Hch.
  unfold pyramid_channels, adjusted.
  cbn [YNetDecoder.truthy YNetDecoder.traj_width].
  rewrite map_app. cbn [map].
  destruct (Nat.eqb_spec w 0) as [->|Hw]; cbn [negb].
  - rewrite (map_ext _ (fun c => c)) by (intros c; lia).
    rewrite map_id, Nat.add_0_r. reflexivity.
  - rewrite last_map_add by exact Henc. reflexivity.
Qed.


End TrajFacts.

(** X6.  A trajectory decoder built for [waypoints > 0] cannot be run on
    the pyramid as the encoder returns it: the first convolution of its
    center block expects [waypoints] more channels than the bottleneck has
    and raises; the caller has to append the conditioning channels. *)
Theorem pred_traj_needs_conditioning :
  forall (torch_load : string -> bool) (obs_len pred_len : nat)
         (fp : option string) (use_features_only : bool) (semantic_classes : nat)
         (enc dec : list nat) (waypoints : nat) (m : YNetTorch.t)
         (x : Shape) (features : list Shape),
    YNetTorch.init torch_load obs_len pred_len fp use_features_only
                   semantic_classes enc dec waypoints = Ok m ->
    0 < waypoints ->
    YNetTorch.pred_features m x = Ok features ->
    YNetTorch.pred_traj m features
    = Err (ConvChannelMismatch (last enc 0 + waypoints) (last enc 0)).
Proof.
  intros torch_load obs pred fp ufo sc enc dec wp m x features Hinit Hwp Hfeat.
  destruct (ModelFacts.model_init_inv _ _ _ _ _ _ _ _ _ _ Hinit)
    as (sc' & He & _ & Ht).
  destruct enc as [|c0 rest]; [discriminate|].
  destruct (EncoderCases.forward_ok_inv (sc' + obs) c0 rest _ x features He Hfeat)
    as (_ & _ & _ & ->).
  rewrite DecoderFacts.init_unfold in Ht.
  destruct (rev (adjusted (c0 :: rest) (Some wp))) as [|c es] eqn:E;
    [discriminate|].
  assert (Hc : c = last (c0 :: rest) 0 + wp).
  { assert (Hl : last (adjusted (c0 :: rest) (Some wp)) 0 = c).
    { rewrite <- (rev_involutive (adjusted (c0 :: rest) (Some wp))), E.
      apply (last_rev (c :: es)). }
    rewrite <- Hl. unfold adjusted.
    cbn [YNetDecoder.truthy YNetDecoder.traj_width].
    destruct (Nat.eqb_spec wp 0); [lia|]. cbn [negb].
    apply TrajFacts.last_map_add. discriminate. }
  destruct dec as [|d0 dec]; [discriminate|].
  injection Ht as Ht.
  unfold YNetTorch.pred_traj, YNetDecoder.forward, YNetDecoder.forward_skips.
  rewrite <- Ht. cbn [YNetDecoder.center].
  destruct (rev (mkShape (dimN x) c0 (dimH x) (dimW x)
                 :: below (dimN x) c0 (dimH x) (dimW x) rest))
    as [|b fs] eqn:Hrev.
  { apply (f_equal (@length Shape)) in Hrev. rewrite length_rev in Hrev.
    discriminate. }
  destruct (TrajFacts.rev_pyramid rest x c0 b fs Hrev) as (_ & _ & HbC & _).
  unfold YNetDecoder.center_block.
  cbn [sequential_forward layer_forward].
  unfold conv2d_forward at 1. unfold conv3x3 at 1 2.
  cbn [in_channels out_channels].
  destruct (Nat.eqb_spec (c * 2) 0); [lia|].
  rewrite HbC, Hc.
  destruct (Nat.eqb_spec (last (c0 :: rest) 0) (last (c0 :: rest) 0 + wp));
    [lia | reflexivity].
Qed.

Lemma pred_traj_needs_conditioning_witness :
  (m <- get_ynet (fun _ => false) 8 12 ;;
   features <- YNetTorch.pred_features m (mkShape 1 8 64 64) ;;
   YNetTorch.pred_traj m features)
  = Err (ConvChannelMismatch 65 64).
Proof.
  destruct (get_ynet (fun _ => false) 8 12) as [m|] eqn:Hm; [|discriminate].
  cbn [bind].
  destruct (YNetTorch.pred_features m (mkShape 1 8 64 64)) as [features|] eqn:Hf.
  - cbn [bind].
    apply (pred_traj_needs_conditioning (fun _ => false) 8 12 None false 0
             default_encoder_channels default_decoder_channels 1 m
             (mkShape 1 8 64 64) features Hm);
      [repeat constructor | exact Hf].
  - vm_compute in Hm. injection Hm as <-. vm_compute in Hf. discriminate.
Defined.

(** X7.  With valid channel lists, as many decoder channels as encoder
    channels, every decoder channel but the last at least 2 and a positive
    [pred_len], the trajectory decoder run on the encoder's pyramid with
    [waypoints] conditioning channels appended to every entry returns
    [pred_len] channels at the resolution of the input, whenever the
    height and the width of the input are multiples of
    [2 ^ len(encoder_channels)]. *)
Theorem pred_traj_on_conditioned_pyramid :
  forall (torch_load : string -> bool) (obs_len pred_len : nat)
         (fp : option string) (use_features_only : bool) (semantic_classes : nat)
         (enc dec : list nat) (waypoints : nat) (m : YNetTorch.t)
         (x : Shape) (features : list Shape),
    valid_channels enc -> valid_channels dec ->
    halvable dec -> 0 < pred_len ->
    YNetTorch.init torch_load obs_len pred_len fp use_features_only
                   semantic_classes enc dec waypoints = Ok m ->
    length dec = length enc ->
    YNetTorch.pred_features m x = Ok features ->
    Nat.divide (2 ^ length enc) (dimH x) ->
    Nat.divide (2 ^ length enc) (dimW x) ->
    YNetTorch.pred_traj m (map (with_conditioning waypoints) features)
    = Ok (mkShape (dimN x) pred_len (dimH x) (dimW x)).
Proof.
  intros torch_load obs pred fp ufo sc enc dec wp m x features
         [_ Hencpos] [_ Hdecpos] Hhalv Hout Hinit Hlen Hfeat HdH HdW.
  destruct (ModelFacts.model_init_inv _ _ _ _ _ _ _ _ _ _ Hinit)
    as (sc' & He & _ & Ht).
  destruct enc as [|c0 rest]; [discriminate|].
  destruct (EncoderCases.forward_ok_inv (sc' + obs) c0 rest _ x features He Hfeat)
    as (_ & HH & HW & ->).
  cbn [length] in *.
  set (P := mkShape (dimN x) c0 (dimH x) (dimW x)
            :: below (dimN x) c0 (dimH x) (dimW x) rest) in *.
  destruct (rev P) as [|b fs] eqn:Hrev.
  { apply (f_equal (@length Shape)) in Hrev. rewrite length_rev in Hrev.
    discriminate. }
  destruct (TrajFacts.rev_pyramid rest x c0 b fs Hrev)
    as (Hfs & HbN & _ & HbH & HbW).
  assert (Hpos : forall h, 2 ^ S (length rest) <= h ->
                           1 <= h / 2 ^ S (length rest)).
  { intros h Hh. apply Nat.div_le_lower_bound; [apply Nat.pow_nonzero|]; lia. }
  assert (Hch : map dimC (map (with_conditioning wp) P)
                = pyramid_channels (adjusted (c0 :: rest) (Some wp))).
  { apply TrajFacts.conditioned_channels; [discriminate|].
    unfold P. cbn [map dimC]. rewrite PyramidFacts.map_dimC_below. reflexivity. }
  assert (Hrev' : rev (map (with_conditioning wp) P)
                  = with_conditioning wp b :: map (with_conditioning wp) fs).
  { rewrite <- map_rev, Hrev. reflexivity. }
  pose proof (DecoderFacts.decoder_forward_built (c0 :: rest) dec pred (Some wp)
                (YNetTorch.traj_decoder m) (map (with_conditioning wp) P)
                (with_conditioning wp b) (map (with_conditioning wp) fs)
                Hencpos Hdecpos Hhalv Hout Ht Hlen Hrev' Hch) as Hfwd.
  cbn [with_conditioning dimH dimW dimN] in Hfwd.
  rewrite HbH, HbW in Hfwd. specialize (Hfwd (Hpos _ HH) (Hpos _ HW)).
  change (mkShape (dimN b) (dimC b + wp) (dimH b) (dimW b))
    with (with_conditioning wp b) in Hfwd.
  rewrite TrajFacts.first_mismatch_conditioned in Hfwd.
  rewrite (TrajFacts.rev_pyramid_fits rest x c0 b fs Hrev HdH HdW) in Hfwd.
  unfold YNetTorch.pred_traj, YNetDecoder.forward. rewrite Hfwd. cbn [bind fst].
  rewrite length_map, Hfs, HbN.
  destruct HdH as [qh Hqh]. destruct HdW as [qw Hqw].
  rewrite Hqh, Hqw, !Nat.div_mul by (apply Nat.pow_nonzero; discriminate).
  reflexivity.
Qed.

Lemma pred_traj_on_conditioned_pyramid_witness :
  (m <- get_ynet (fun _ => false) 8 12 ;;
   features <- YNetTorch.pred_features m (mkShape 1 8 64 96) ;;
   YNetTorch.pred_traj m (map (with_conditioning 1) features))
  = Ok (mkShape 1 12 64 96).
Proof.
  destruct (get_ynet (fun _ => false) 8 12) as [m|] eqn:Hm; [|discriminate].
  cbn [bind].
  destruct (YNetTorch.pred_features m (mkShape 1 8 64 96)) as [features|] eqn:Hf.
  - cbn [bind].
    assert (Hve : valid_channels default_encoder_channels)
      by (split; [discriminate | repeat constructor]).
    assert (Hvd : valid_channels default_decoder_channels)
      by (split; [discriminate | repeat constructor]).
    assert (Hhd : halvable default_decoder_channels) by (repeat constructor).
    assert (Hp : 0 < 12) by lia.
    apply (pred_traj_on_conditioned_pyramid (fun _ => false) 8 12 None false 0
             default_encoder_channels default_decoder_channels 1 m
             (mkShape 1 8 64 96) features Hve Hvd Hhd Hp Hm eq_refl Hf);
      [exists 2; reflexivity | exists 3; reflexivity].
  - vm_compute in Hm. injection Hm as <-. vm_compute in Hf. discriminate.
Defined.



(** ** Heatmaps as tables of cells *)

Module HeatmapFacts.

Local Open Scope R_scope.

Lemma slice_table (x : Tensor4) (n c h w b k : nat) :
  has_shape x n c h w -> (b < n)%nat -> (k < c)%nat ->
  slice x b k = map (fun i => map (fun j => at4 x b k i j) (seq 0 w)) (seq 0 h).
Proof.
  intros Hx Hb Hk.
  destruct (TensorFacts.has_shape_slice x n c h w b k Hx Hb Hk) as [Hh Hw].
  apply (GridFacts.grid_ext (slice x b k) h w (at4 x b k) Hh Hw).
  intros i j _ _. reflexivity.
Qed.

(** The coordinates of a channel are two weighted sums over its cells,
    weighted by the column index and by the row index. *)
Lemma coordinates_grid_sum (x : Tensor4) (n c h w b k : nat) :
  has_shape x n c h w -> (b < n)%nat -> (k < c)%nat -> (0 < h)%nat ->
  coordinates x b k
  = [grid_sum (fun _ j => INR j) (at4 x b k) h w;
     grid_sum (fun i _ => INR i) (at4 x b k) h w].
Proof.
  intros Hx Hb Hk Hh. unfold coordinates.
  rewrite TensorFacts.softargmax_unfold.
  rewrite (TensorFacts.nth_map_map _ [] x n c h w b k Hx Hb Hk).
  rewrite (TensorFacts.create_meshgrid_shape x n c h w)
    by (apply TensorFacts.size4_has_shape; [exact Hx | lia | lia | exact Hh]).
  cbn [fst snd]. rewrite (slice_table x n c h w b k Hx Hb Hk).
  rewrite (GridFacts.dot_grid (fun _ j => INR j)).
  rewrite (GridFacts.dot_grid (fun i _ => INR i)).
  reflexivity.
Qed.

Lemma sum_table (f : R -> R) (g : nat -> nat -> R) (h w : nat) :
  sum_list (map f (concat (map (fun i => map (g i) (seq 0 w)) (seq 0 h))))
  = grid_sum (fun _ _ => 1) (fun i j => f (g i j)) h w.
Proof.
  unfold grid_sum.
  rewrite concat_map, GridFacts.sum_list_concat, !map_map.
  f_equal. apply map_ext. intros i. rewrite map_map.
  f_equal. apply map_ext. intros j. lra.
Qed.

(** The mass of a channel. *)
Lemma mass_grid_sum (x : Tensor4) (n c h w b k : nat) :
  has_shape x n c h w -> (b < n)%nat -> (k < c)%nat ->
  sum_list (concat (slice x b k)) = grid_sum (fun _ _ => 1) (at4 x b k) h w.
Proof.
  intros Hx Hb Hk. rewrite (slice_table x n c h w b k Hx Hb Hk).
  rewrite <- (map_id (concat _)). apply (sum_table (fun a => a)).
Qed.

Lemma sum_list_map_le (f g : nat -> R) (l : list nat) :
  (forall k, In k l -> f k <= g k) ->
  sum_list (map f l) <= sum_list (map g l).
Proof.
  induction l as [|a l IH]; intros Hle; [simpl; lra|].
  cbn [map sum_list fold_right].
  pose proof (Hle a (or_introl eq_refl)).
  assert (sum_list (map f l) <= sum_list (map g l))
    by (apply IH; intros k Hk; apply Hle; right; exact Hk).
  unfold sum_list in *. lra.
Qed.

Lemma sum_list_map_scale (a : R) (f : nat -> R) (l : list nat) :
  sum_list (map (fun k => a * f k) l) = a * sum_list (map f l).
Proof.
  induction l as [|b l IH]; [simpl; lra|].
  cbn [map sum_list fold_right]. unfold sum_list in *. rewrite IH. lra.
Qed.

Lemma grid_sum_le (pa pb g : nat -> nat -> R) (h w : nat) :
  (forall i j, (i < h)%nat -> (j < w)%nat -> pa i j * g i j <= pb i j * g i j) ->
  grid_sum pa g h w <= grid_sum pb g h w.
Proof.
  intros Hle. unfold grid_sum. apply sum_list_map_le. intros i Hi.
  apply in_seq in Hi. apply sum_list_map_le. intros j Hj.
  apply in_seq in Hj. apply Hle; lia.
Qed.

Lemma grid_sum_const (a : R) (g : nat -> nat -> R) (h w : nat) :
  grid_sum (fun _ _ => a) g h w = a * grid_sum (fun _ _ => 1) g h w.
Proof.
  unfold grid_sum. rewrite <- sum_list_map_scale. f_equal.
  apply map_ext. intros i. rewrite <- sum_list_map_scale. f_equal.
  apply map_ext. intros j. lra.
Qed.

Lemma grid_sum_ext (pa pb g g' : nat -> nat -> R) (h w : nat) :
  (forall i j, (i < h)%nat -> (j < w)%nat -> pa i j * g i j = pb i j * g' i j) ->
  grid_sum pa g h w = grid_sum pb g' h w.
Proof.
  intros Heq. unfold grid_sum. f_equal. apply map_ext_in. intros i Hi.
  apply in_seq in Hi. f_equal. apply map_ext_in. intros j Hj.
  apply in_seq in Hj. apply Heq; lia.
Qed.

Lemma slice_nonneg (x : Tensor4) (n c h w b k i j : nat) :
  has_shape x n c h w -> (b < n)%nat -> (k < c)%nat ->
  (i < h)%nat -> (j < w)%nat ->
  Forall (Forall (fun v => 0 <= v)) (slice x b k) ->
  0 <= at4 x b k i j.
Proof.
  intros Hx Hb Hk Hi Hj Hall.
  destruct (TensorFacts.has_shape_slice x n c h w b k Hx Hb Hk) as [Hh Hw].
  rewrite Forall_forall in Hall, Hw.
  assert (Hin : In (nth i (slice x b k) []) (slice x b k))
    by (apply nth_In; lia).
  specialize (Hall _ Hin). specialize (Hw _ Hin).
  rewrite Forall_forall in Hall. apply Hall.
  unfold at4. apply nth_In. rewrite Hw. exact Hj.
Qed.

(** The weighted centroid of non-negative values of mass 1 lies within
    the grid. *)
Lemma coordinates_bounds (x : Tensor4) (n c h w b k : nat) :
  has_shape x n c h w -> (b < n)%nat -> (k < c)%nat ->
  (0 < h)%nat -> (0 < w)%nat ->
  Forall (Forall (fun v => 0 <= v)) (slice x b k) ->
  sum_list (concat (slice x b k)) = 1 ->
  exists ex ey : R,
    coordinates x b k = [ex; ey]
    /\ 0 <= ex <= INR (w - 1) /\ 0 <= ey <= INR (h - 1).
Proof.
  intros Hx Hb Hk Hh Hw Hpos Hmass.
  rewrite (coordinates_grid_sum x n c h w b k Hx Hb Hk Hh).
  rewrite (mass_grid_sum x n c h w b k Hx Hb Hk) in Hmass.
  assert (Hg : forall i j, (i < h)%nat -> (j < w)%nat -> 0 <= at4 x b k i j).
  { intros i j Hi Hj. apply (slice_nonneg x n c h w b k i j); assumption. }
  assert (Hzero : grid_sum (fun _ _ => 0) (at4 x b k) h w = 0)
    by (rewrite grid_sum_const; lra).
  do 2 eexists. split; [reflexivity|]. split; split.
  - rewrite <- Hzero. apply grid_sum_le. intros i j Hi Hj.
    pose proof (Hg i j Hi Hj). pose proof (pos_INR j). nra.
  - replace (INR (w - 1)) with (INR (w - 1) * 1) by lra. rewrite <- Hmass.
    rewrite <- grid_sum_const. apply grid_sum_le. intros i j Hi Hj.
    pose proof (Hg i j Hi Hj).
    assert (INR j <= INR (w - 1)) by (apply le_INR; lia). nra.
  - rewrite <- Hzero. apply grid_sum_le. intros i j Hi Hj.
    pose proof (Hg i j Hi Hj). pose proof (pos_INR i). nra.
  - replace (INR (h - 1)) with (INR (h - 1) * 1) by lra. rewrite <- Hmass.
    rewrite <- grid_sum_const. apply grid_sum_le. intros i j Hi Hj.
    pose proof (Hg i j Hi Hj).
    assert (INR i <= INR (h - 1)) by (apply le_INR; lia). nra.
Qed.

(** *** Softmax, cell by cell *)

Lemma rows_of_map_concat (f : R -> R) (ch : list (list R)) (w : nat) :
  Forall (fun row => length row = w) ch ->
  rows_of (length ch) w (map f (concat ch)) = map (map f) ch.
Proof.
  intros Hw. induction Hw as [|row ch Hrow _ IH]; [reflexivity|].
  cbn [length rows_of concat map]. rewrite map_app.
  assert (Hl : length (map f row) = w) by (rewrite length_map; exact Hrow).
  rewrite firstn_app, skipn_app, Hl, Nat.sub_diag.
  rewrite (@firstn_all2 R w (map f row)) by lia.
  rewrite (@skipn_all2 R w (map f row)) by lia.
  cbn [firstn skipn app]. rewrite app_nil_r, IH. reflexivity.
Qed.

Lemma softmax_slice_map (x : Tensor4) (n c h w b k : nat) :
  image_batch x n c h w -> (b < n)%nat -> (k < c)%nat ->
  slice (softmax x) b k
  = map (map (fun a => exp a / sum_list (map exp (concat (slice x b k)))))
        (slice x b k).
Proof.
  intros Hx Hb Hk.
  rewrite (SoftmaxFacts.softmax_slice x n c h w b k Hx Hb Hk).
  destruct Hx as (Hx & _).
  destruct (TensorFacts.has_shape_slice x n c h w b k Hx Hb Hk) as [Hh Hw].
  unfold softmax_1d. rewrite <- Hh. apply rows_of_map_concat. exact Hw.
Qed.

Lemma softmax_has_shape (x : Tensor4) (n c h w : nat) :
  image_batch x n c h w -> has_shape (softmax x) n c h w.
Proof.
  intros Hx. rewrite (SoftmaxFacts.softmax_unfold x n c h w Hx).
  destruct Hx as ([Hn Hall] & _). split; [rewrite length_map; exact Hn|].
  rewrite Forall_map. apply (Forall_impl _ (P := fun img =>
    length img = c
    /\ Forall (fun ch => length ch = h /\ Forall (fun row => length row = w) ch) img));
    [|exact Hall].
  intros img [Hc Hchs]. split; [rewrite length_map; exact Hc|].
  rewrite Forall_map. apply (Forall_impl _ (P := fun ch =>
    length ch = h /\ Forall (fun row => length row = w) ch)); [|exact Hchs].
  intros ch [Hh Hw].
  assert (Hlen : length (softmax_1d (concat ch)) = (h * w)%nat).
  { rewrite SoftmaxFacts.length_softmax_1d.
    apply SoftmaxFacts.length_concat_grid; assumption. }
  destruct (SoftmaxFacts.rows_of_spec h w _ Hlen) as (H1 & H2 & _).
  split; assumption.
Qed.

Lemma at4_map (f : R -> R) (x : Tensor4) (n c h w b k i j : nat) :
  has_shape x n c h w -> (b < n)%nat -> (k < c)%nat ->
  (i < h)%nat -> (j < w)%nat ->
  nth j (nth i (map (map f) (slice x b k)) []) 0 = f (at4 x b k i j).
Proof.
  intros Hx Hb Hk Hi Hj.
  destruct (TensorFacts.has_shape_slice x n c h w b k Hx Hb Hk) as [Hh Hw].
  change (@nil R) with (map f []) at 1.
  rewrite (map_nth (map f) (slice x b k) [] i).
  assert (Hrow : length (nth i (slice x b k) []) = w).
  { rewrite Forall_forall in Hw. apply Hw. apply nth_In. lia. }
  rewrite (nth_indep (map f (nth i (slice x b k) [])) 0 (f 0))
    by (rewrite length_map; lia).
  rewrite (map_nth f (nth i (slice x b k) []) 0 j). reflexivity.
Qed.

(** The value [softmax] puts at a cell. *)
Lemma at4_softmax (x : Tensor4) (n c h w b k i j : nat) :
  image_batch x n c h w -> (b < n)%nat -> (k < c)%nat ->
  (i < h)%nat -> (j < w)%nat ->
  at4 (softmax x) b k i j
  = exp (at4 x b k i j)
    / grid_sum (fun _ _ => 1) (fun i' j' => exp (at4 x b k i' j')) h w.
Proof.
  intros Hx Hb Hk Hi Hj.
  change (at4 (softmax x) b k i j)
    with (nth j (nth i (slice (softmax x) b k) []) 0).
  rewrite (softmax_slice_map x n c h w b k Hx Hb Hk).
  destruct Hx as (Hx & _).
  rewrite (at4_map _ x n c h w b k i j Hx Hb Hk Hi Hj).
  rewrite (slice_table x n c h w b k Hx Hb Hk) at 1.
  rewrite (sum_table exp). reflexivity.
Qed.

Lemma softmax_slice_normalized (x : Tensor4) (n c h w b k : nat) :
  image_batch x n c h w -> (b < n)%nat -> (k < c)%nat ->
  Forall (Forall (fun v => 0 <= v)) (slice (softmax x) b k)
  /\ sum_list (concat (slice (softmax x) b k)) = 1.
Proof.
  intros Hx Hb Hk.
  rewrite (SoftmaxFacts.softmax_slice x n c h w b k Hx Hb Hk).
  destruct Hx as (Hshape & Hh & Hw).
  destruct (TensorFacts.has_shape_slice x n c h w b k Hshape Hb Hk) as [Hsh Hsw].
  assert (Hlen : length (softmax_1d (concat (slice x b k))) = (h * w)%nat).
  { rewrite SoftmaxFacts.length_softmax_1d.
    apply SoftmaxFacts.length_concat_grid; assumption. }
  destruct (SoftmaxFacts.rows_of_spec h w _ Hlen) as (_ & _ & Hcat).
  assert (Hne : concat (slice x b k) <> []).
  { intros Hnil. apply (f_equal (@length R)) in Hnil.
    rewrite (SoftmaxFacts.length_concat_grid (slice x b k) h w Hsh Hsw) in Hnil.
    cbn [length] in Hnil. nia. }
  split.
  - apply Forall_concat. rewrite Hcat. apply SoftmaxFacts.softmax_1d_pos.
  - rewrite Hcat. apply SoftmaxFacts.softmax_1d_sum. exact Hne.
Qed.

End HeatmapFacts.

(** ** Coordinates of a heatmap *)

(** X9.  On a normalized channel (non-negative values that sum to 1)
    [softargmax_on_softmax_map] returns coordinates inside the grid:
    [0 <= x <= w - 1] and [0 <= y <= h - 1]. *)
Theorem softargmax_within_grid :
  forall (x : Tensor4) (n c h w b k : nat),
    has_shape x n c h w -> b < n -> k < c -> 0 < h -> 0 < w ->
    Forall (Forall (fun v => (0 <= v)%R)) (slice x b k) ->
    sum_list (concat (slice x b k)) = 1%R ->
    exists ex ey : R,
      coordinates x b k = [ex; ey]
      /\ (0 <= ex <= INR (w - 1))%R /\ (0 <= ey <= INR (h - 1))%R.
Proof. exact HeatmapFacts.coordinates_bounds. Qed.

Lemma softargmax_within_grid_witness :
  exists ex ey : R,
    coordinates [[[[/ 2; 0]; [0; / 2]]]]%R 0 0 = [ex; ey]
    /\ (0 <= ex <= INR (2 - 1))%R /\ (0 <= ey <= INR (2 - 1))%R.
Proof.
  apply (softargmax_within_grid [[[[/ 2; 0]; [0; / 2]]]]%R 1 1 2 2 0 0).
  - split; [reflexivity | repeat constructor].
  - lia.
  - lia.
  - lia.
  - lia.
  - repeat constructor; lra.
  - cbn. lra.
Defined.

(** X10.  The value [softmax] puts at a pixel is the exponential of the
    logit at that same pixel, divided by the sum of the exponentials over
    the pixels of its channel: flattening the pixels and viewing the
    result as the input again moves no value. *)
Theorem softmax_entry :
  forall (x : Tensor4) (n c h w b k i j : nat),
    image_batch x n c h w -> b < n -> k < c -> i < h -> j < w ->
    at4 (softmax x) b k i j
    = (exp (at4 x b k i j)
       / grid_sum (fun _ _ => 1) (fun i' j' => exp (at4 x b k i' j')) h w)%R.
Proof. exact HeatmapFacts.at4_softmax. Qed.

Lemma softmax_entry_witness :
  at4 (softmax [[[[0; 1]; [2; 3]]]]%R) 0 0 1 0
  = (exp 2 / grid_sum (fun _ _ => 1)
                      (fun i' j' => exp (at4 [[[[0; 1]; [2; 3]]]] 0 0 i' j')) 2 2)%R.
Proof.
  apply (softmax_entry [[[[0; 1]; [2; 3]]]]%R 1 1 2 2 0 0 1 0); try lia.
  split; [split; [reflexivity | repeat constructor] | split; lia].
Defined.

(** X11.  Soft-argmax after softmax: for every batch of images with at
    least one pixel the coordinates computed from the softmax of the
    logits lie inside the grid. *)
Theorem softargmax_of_softmax_within_grid :
  forall (x : Tensor4) (n c h w b k : nat),
    image_batch x n c h w -> b < n -> k < c ->
    exists ex ey : R,
      coordinates (softmax x) b k = [ex; ey]
      /\ (0 <= ex <= INR (w - 1))%R /\ (0 <= ey <= INR (h - 1))%R.
Proof.
  intros x n c h w b k Hx Hb Hk.
  destruct (HeatmapFacts.softmax_slice_normalized x n c h w b k Hx Hb Hk)
    as [Hpos Hsum].
  pose proof (HeatmapFacts.softmax_has_shape x n c h w Hx) as Hshape.
  destruct Hx as (_ & Hh & Hw).
  apply (HeatmapFacts.coordinates_bounds (softmax x) n c h w b k);
    assumption.
Qed.

Lemma softargmax_of_softmax_within_grid_witness :
  exists ex ey : R,
    coordinates (softmax [[[[0; 1; 5]; [2; 3; -1]]]]%R) 0 0 = [ex; ey]
    /\ (0 <= ex <= INR (3 - 1))%R /\ (0 <= ey <= INR (2 - 1))%R.
Proof.
  apply (softargmax_of_softmax_within_grid
           [[[[0; 1; 5]; [2; 3; -1]]]]%R 1 1 2 3 0 0); try lia.
  split; [split; [reflexivity | repeat constructor] | split; lia].
Defined.

(** ** Moving, flattening and shifting heatmaps *)

Module ShiftFacts.

Local Open Scope R_scope.

Lemma sum_list_map_plus (f g : nat -> R) (l : list nat) :
  sum_list (map (fun k => f k + g k) l)
  = sum_list (map f l) + sum_list (map g l).
Proof.
  induction l as [|a l IH]; [simpl; lra|].
  cbn [map sum_list fold_right]. unfold sum_list in *. rewrite IH. lra.
Qed.

(** Moving the values of a row one cell up shifts the coefficients they
    meet, provided nothing is moved out of the row. *)
Lemma shift_sum (f s s' : nat -> R) (w' : nat) :
  s' 0%nat = 0 ->
  (forall j, (j < w')%nat -> s' (S j) = s j) ->
  s w' = 0 ->
  sum_list (map (fun j => f j * s' j) (seq 0 (S w')))
  = sum_list (map (fun j => f (S j) * s j) (seq 0 (S w'))).
Proof.
  intros H0 Hshift Hlast.
  rewrite seq_S at 2. rewrite map_app, GridFacts.sum_list_app.
  cbn [seq map sum_list fold_right Nat.add]. rewrite H0, Hlast.
  rewrite <- seq_shift, map_map.
  rewrite (map_ext_in (fun j => f (S j) * s' (S j)) (fun j => f (S j) * s j))
    by (intros j Hj; apply in_seq in Hj; rewrite Hshift by lia; reflexivity).
  unfold sum_list. lra.
Qed.

Lemma grid_sum_plus (pa pb g : nat -> nat -> R) (h w : nat) :
  grid_sum (fun i j => pa i j + pb i j) g h w
  = grid_sum pa g h w + grid_sum pb g h w.
Proof.
  unfold grid_sum. rewrite <- sum_list_map_plus. f_equal.
  apply map_ext. intros i. rewrite <- sum_list_map_plus. f_equal.
  apply map_ext. intros j. lra.
Qed.

(** All the values of a grid moved one column to the right. *)
Lemma grid_sum_shift_columns (pa g g' : nat -> nat -> R) (h w' : nat) :
  (forall i, (i < h)%nat -> g' i 0%nat = 0) ->
  (forall i j, (i < h)%nat -> (j < w')%nat -> g' i (S j) = g i j) ->
  (forall i, (i < h)%nat -> g i w' = 0) ->
  grid_sum pa g' h (S w') = grid_sum (fun i j => pa i (S j)) g h (S w').
Proof.
  intros H0 Hshift Hlast. unfold grid_sum. f_equal.
  apply map_ext_in. intros i Hi. apply in_seq in Hi.
  apply (shift_sum (pa i) (g i) (g' i) w').
  - apply H0. lia.
  - intros j Hj. apply Hshift; lia.
  - apply Hlast. lia.
Qed.

(** All the values of a grid moved one row down. *)
Lemma grid_sum_shift_rows (pa g g' : nat -> nat -> R) (h' w : nat) :
  (forall j, (j < w)%nat -> g' 0%nat j = 0) ->
  (forall i j, (i < h')%nat -> (j < w)%nat -> g' (S i) j = g i j) ->
  (forall j, (j < w)%nat -> g h' j = 0) ->
  grid_sum pa g' (S h') w = grid_sum (fun i j => pa (S i) j) g (S h') w.
Proof.
  intros H0 Hshift Hlast. unfold grid_sum.
  pose (F' := fun i => sum_list (map (fun j => pa i j * g' i j) (seq 0 w))).
  pose (G := fun i => sum_list (map (fun j => pa (S i) j * g i j) (seq 0 w))).
  assert (Hzero : forall (q : nat -> R),
             (forall j, (j < w)%nat -> q j = 0) ->
             forall p : nat -> R,
               sum_list (map (fun j => p j * q j) (seq 0 w)) = 0).
  { intros q Hq p.
    rewrite (map_ext_in _ (fun j => 0 * p j))
      by (intros j Hj; apply in_seq in Hj; rewrite Hq by lia; lra).
    rewrite HeatmapFacts.sum_list_map_scale. lra. }
  pose proof (shift_sum (fun _ => 1) G (fun i => F' i) h') as Hs.
  rewrite (map_ext _ (fun i => 1 * F' i)) by (intros i; unfold F'; lra).
  rewrite Hs.
  - apply f_equal. apply map_ext. intros i. unfold G. lra.
  - unfold F'. apply Hzero. exact H0.
  - intros i Hi. unfold F', G. f_equal. apply map_ext_in. intros j Hj.
    apply in_seq in Hj. rewrite Hshift by lia. reflexivity.
  - unfold G. apply Hzero. exact Hlast.
Qed.

Lemma sum_const (a : R) (n : nat) :
  sum_list (map (fun _ => a) (seq 0 n)) = INR n * a.
Proof.
  generalize 0%nat. induction n as [|n IH]; intros s; [simpl; lra|].
  cbn [seq map sum_list fold_right]. fold (sum_list (map (fun _ => a) (seq (S s) n))).
  rewrite IH, S_INR. lra.
Qed.

Lemma sum_INR (n : nat) :
  sum_list (map INR (seq 0 n)) = INR n * (INR n - 1) / 2.
Proof.
  induction n as [|n IH]; [simpl; lra|].
  rewrite seq_S, map_app, GridFacts.sum_list_app, IH.
  cbn [map sum_list fold_right Nat.add]. rewrite S_INR. lra.
Qed.

Lemma sum_list_map_pos (f : nat -> R) (l : list nat) :
  l <> [] -> (forall k, 0 < f k) -> 0 < sum_list (map f l).
Proof.
  intros Hl Hf. destruct l as [|a l]; [contradiction|]. clear Hl.
  revert a. induction l as [|a' l IH]; intros a.
  - simpl. pose proof (Hf a). lra.
  - specialize (IH a'). cbn [map sum_list fold_right] in *.
    pose proof (Hf a). lra.
Qed.

Lemma seq_nonempty (n : nat) : (0 < n)%nat -> seq 0 n <> [].
Proof. destruct n; [lia | discriminate]. Qed.

(** The denominator of a softmax is positive. *)
Lemma grid_sum_exp_pos (g : nat -> nat -> R) (h w : nat) :
  (0 < h)%nat -> (0 < w)%nat ->
  0 < grid_sum (fun _ _ => 1) (fun i j => exp (g i j)) h w.
Proof.
  intros Hh Hw. unfold grid_sum.
  apply sum_list_map_pos; [apply seq_nonempty; exact Hh|]. intros i.
  apply sum_list_map_pos; [apply seq_nonempty; exact Hw|]. intros j.
  pose proof (exp_pos (g i j)). lra.
Qed.


End ShiftFacts.

(** X12.  Translation along x: when all the values of a channel are
    moved one column to the right (the last column being empty, so that
    nothing leaves the grid), the x coordinate grows by the mass of the
    channel, by 1 for a normalized channel, and the y coordinate stays. *)
Theorem softargmax_shift_right :
  forall (x x' : Tensor4) (n c h w b k : nat),
    has_shape x n c h w -> has_shape x' n c h w ->
    b < n -> k < c -> 0 < h -> 0 < w ->
    (forall i, i < h -> at4 x' b k i 0 = 0%R) ->
    (forall i j, i < h -> S j < w -> at4 x' b k i (S j) = at4 x b k i j) ->
    (forall i, i < h -> at4 x b k i (w - 1) = 0%R) ->
    exists ex ey : R,
      coordinates x b k = [ex; ey]
      /\ coordinates x' b k
         = [(ex + sum_list (concat (slice x b k)))%R; ey].
Proof.
  intros x x' n c h w b k Hx Hx' Hb Hk Hh Hw H0 Hshift Hlast.
  rewrite (HeatmapFacts.coordinates_grid_sum x n c h w b k Hx Hb Hk Hh).
  rewrite (HeatmapFacts.coordinates_grid_sum x' n c h w b k Hx' Hb Hk Hh).
  rewrite (HeatmapFacts.mass_grid_sum x n c h w b k Hx Hb Hk).
  destruct w as [|w']; [lia|].
  replace (S w' - 1) with w' in Hlast by lia.
  assert (Hs : forall i j, i < h -> j < w' -> at4 x' b k i (S j) = at4 x b k i j)
    by (intros i j Hi Hj; apply Hshift; lia).
  do 2 eexists. split; [reflexivity|]. f_equal; [|f_equal].
  - rewrite (ShiftFacts.grid_sum_shift_columns (fun _ j => INR j)
               (at4 x b k) (at4 x' b k) h w' H0 Hs Hlast).
    rewrite <- ShiftFacts.grid_sum_plus.
    apply HeatmapFacts.grid_sum_ext. intros i j _ _. rewrite S_INR. reflexivity.
  - apply (ShiftFacts.grid_sum_shift_columns (fun i _ => INR i)
             (at4 x b k) (at4 x' b k) h w' H0 Hs Hlast).
Qed.

Lemma softargmax_shift_right_witness :
  exists ex ey : R,
    coordinates [[[[0; 1; 0]; [0; 0; 0]]]]%R 0 0 = [ex; ey]
    /\ coordinates [[[[0; 0; 1]; [0; 0; 0]]]]%R 0 0
       = [(ex + sum_list (concat (slice [[[[0; 1; 0]; [0; 0; 0]]]] 0 0)))%R; ey].
Proof.
  apply (softargmax_shift_right
           [[[[0; 1; 0]; [0; 0; 0]]]]%R [[[[0; 0; 1]; [0; 0; 0]]]]%R
           1 1 2 3 0 0); try lia.
  - split; [reflexivity | repeat constructor].
  - split; [reflexivity | repeat constructor].
  - intros [|[|i]] Hi; try lia; reflexivity.
  - intros [|[|i]] [|[|j]] Hi Hj; try lia; reflexivity.
  - intros [|[|i]] Hi; try lia; reflexivity.
Defined.

(** X13.  Translation along y: when all the values of a channel are
    moved one row down (the last row being empty), the y coordinate grows
    by the mass of the channel and the x coordinate stays. *)
Theorem softargmax_shift_down :
  forall (x x' : Tensor4) (n c h w b k : nat),
    has_shape x n c h w -> has_shape x' n c h w ->
    b < n -> k < c -> 0 < h -> 0 < w ->
    (forall j, j < w -> at4 x' b k 0 j = 0%R) ->
    (forall i j, S i < h -> j < w -> at4 x' b k (S i) j = at4 x b k i j) ->
    (forall j, j < w -> at4 x b k (h - 1) j = 0%R) ->
    exists ex ey : R,
      coordinates x b k = [ex; ey]
      /\ coordinates x' b k
         = [ex; (ey + sum_list (concat (slice x b k)))%R].
Proof.
  intros x x' n c h w b k Hx Hx' Hb Hk Hh Hw H0 Hshift Hlast.
  rewrite (HeatmapFacts.coordinates_grid_sum x n c h w b k Hx Hb Hk Hh).
  rewrite (HeatmapFacts.coordinates_grid_sum x' n c h w b k Hx' Hb Hk Hh).
  rewrite (HeatmapFacts.mass_grid_sum x n c h w b k Hx Hb Hk).
  destruct h as [|h']; [lia|].
  replace (S h' - 1) with h' in Hlast by lia.
  assert (Hs : forall i j, i < h' -> j < w -> at4 x' b k (S i) j = at4 x b k i j)
    by (intros i j Hi Hj; apply Hshift; lia).
  do 2 eexists. split; [reflexivity|]. f_equal; [|f_equal].
  - apply (ShiftFacts.grid_sum_shift_rows (fun _ j => INR j)
             (at4 x b k) (at4 x' b k) h' w H0 Hs Hlast).
  - rewrite (ShiftFacts.grid_sum_shift_rows (fun i _ => INR i)
               (at4 x b k) (at4 x' b k) h' w H0 Hs Hlast).
    rewrite <- ShiftFacts.grid_sum_plus.
    apply HeatmapFacts.grid_sum_ext. intros i j _ _. rewrite S_INR. reflexivity.
Qed.

Lemma softargmax_shift_down_witness :
  exists ex ey : R,
    coordinates [[[[0; 1]; [0; 0]]]]%R 0 0 = [ex; ey]
    /\ coordinates [[[[0; 0]; [0; 1]]]]%R 0 0
       = [ex; (ey + sum_list (concat (slice [[[[0; 1]; [0; 0]]]] 0 0)))%R].
Proof.
  apply (softargmax_shift_down
           [[[[0; 1]; [0; 0]]]]%R [[[[0; 0]; [0; 1]]]]%R 1 1 2 2 0 0); try lia.
  - split; [reflexivity | repeat constructor].
  - split; [reflexivity | repeat constructor].
  - intros [|[|j]] Hj; try lia; reflexivity.
  - intros [|[|i]] [|[|j]] Hi Hj; try lia; reflexivity.
  - intros [|[|j]] Hj; try lia; reflexivity.
Defined.

(** X14.  A channel of constant logits: its softmax is uniform, and the
    coordinates computed from it are those of the centre of the grid,
    [((w - 1) / 2, (h - 1) / 2)]. *)
Theorem softargmax_of_flat_logits :
  forall (x : Tensor4) (n c h w b k : nat) (v : R),
    image_batch x n c h w -> b < n -> k < c ->
    (forall i j, i < h -> j < w -> at4 x b k i j = v) ->
    coordinates (softmax x) b k
    = [((INR w - 1) / 2)%R; ((INR h - 1) / 2)%R].
Proof.
  intros x n c h w b k v Hx Hb Hk Hflat.
  pose proof (HeatmapFacts.softmax_has_shape x n c h w Hx) as Hshape.
  assert (Hh : 0 < h) by apply Hx. assert (Hw : 0 < w) by apply Hx.
  rewrite (HeatmapFacts.coordinates_grid_sum (softmax x) n c h w b k
             Hshape Hb Hk Hh).
  assert (HRh : (0 < INR h)%R) by (apply lt_0_INR; exact Hh).
  assert (HRw : (0 < INR w)%R) by (apply lt_0_INR; exact Hw).
  assert (Hden : grid_sum (fun _ _ => 1%R) (fun i' j' => exp (at4 x b k i' j')) h w
                 = (INR h * (INR w * exp v))%R).
  { unfold grid_sum.
    rewrite (map_ext_in _ (fun _ => (INR w * exp v)%R)).
    - apply ShiftFacts.sum_const.
    - intros i Hi. apply in_seq in Hi.
      rewrite (map_ext_in _ (fun _ => exp v)).
      + apply ShiftFacts.sum_const.
      + intros j Hj. apply in_seq in Hj. rewrite Hflat by lia. lra. }
  assert (Hcell : forall i j, i < h -> j < w ->
                  at4 (softmax x) b k i j = (/ (INR h * INR w))%R).
  { intros i j Hi Hj.
    rewrite (HeatmapFacts.at4_softmax x n c h w b k i j Hx Hb Hk Hi Hj).
    rewrite Hden, Hflat by assumption.
    pose proof (exp_pos v). field. repeat split; lra. }
  f_equal; [|f_equal].
  - rewrite (HeatmapFacts.grid_sum_ext _ (fun _ j => (INR j * / (INR h * INR w))%R)
               _ (fun _ _ => 1%R))
      by (intros i j Hi Hj; rewrite Hcell by assumption; lra).
    unfold grid_sum.
    rewrite (map_ext _ (fun _ => (/ (INR h * INR w) * (INR w * (INR w - 1) / 2))%R)).
    + rewrite ShiftFacts.sum_const. field. split; lra.
    + intros i.
      rewrite (map_ext _ (fun j => (/ (INR h * INR w) * INR j)%R))
        by (intros j; lra).
      rewrite HeatmapFacts.sum_list_map_scale, ShiftFacts.sum_INR. reflexivity.
  - rewrite (HeatmapFacts.grid_sum_ext _ (fun i _ => (INR i * / (INR h * INR w))%R)
               _ (fun _ _ => 1%R))
      by (intros i j Hi Hj; rewrite Hcell by assumption; lra).
    unfold grid_sum.
    rewrite (map_ext _ (fun i => (INR w * / (INR h * INR w) * INR i)%R)).
    + rewrite HeatmapFacts.sum_list_map_scale, ShiftFacts.sum_INR.
      field. split; lra.
    + intros i.
      rewrite (map_ext _ (fun _ => (INR i * / (INR h * INR w))%R))
        by (intros j; lra).
      rewrite ShiftFacts.sum_const. lra.
Qed.

Lemma softargmax_of_flat_logits_witness :
  coordinates (softmax [[[[7; 7; 7]; [7; 7; 7]]]]%R) 0 0
  = [((INR 3 - 1) / 2)%R; ((INR 2 - 1) / 2)%R].
Proof.
  apply (softargmax_of_flat_logits [[[[7; 7; 7]; [7; 7; 7]]]]%R 1 1 2 3 0 0 7%R);
    try lia.
  - split; [split; [reflexivity | repeat constructor] | split; lia].
  - intros [|[|i]] [|[|[|j]]] Hi Hj; try lia; reflexivity.
Defined.

(** X15.  Adding one constant to all the logits of a channel does not
    change the softmax of that channel. *)
Theorem softmax_shift_invariant :
  forall (x x' : Tensor4) (n c h w b k : nat) (delta : R),
    image_batch x n c h w -> image_batch x' n c h w ->
    b < n -> k < c ->
    (forall i j, i < h -> j < w ->
                 at4 x' b k i j = (at4 x b k i j + delta)%R) ->
    forall i j, i < h -> j < w ->
                at4 (softmax x') b k i j = at4 (softmax x) b k i j.
Proof.
  intros x x' n c h w b k delta Hx Hx' Hb Hk Hadd i j Hi Hj.
  rewrite (HeatmapFacts.at4_softmax x n c h w b k i j Hx Hb Hk Hi Hj).
  rewrite (HeatmapFacts.at4_softmax x' n c h w b k i j Hx' Hb Hk Hi Hj).
  assert (Hh : 0 < h) by apply Hx. assert (Hw : 0 < w) by apply Hx.
  rewrite (HeatmapFacts.grid_sum_ext (fun _ _ => 1%R) (fun _ _ => exp delta)
             (fun i' j' => exp (at4 x' b k i' j'))
             (fun i' j' => exp (at4 x b k i' j')) h w)
    by (intros i' j' Hi' Hj'; rewrite Hadd by assumption; rewrite exp_plus; lra).
  rewrite HeatmapFacts.grid_sum_const, Hadd by assumption. rewrite exp_plus.
  pose proof (ShiftFacts.grid_sum_exp_pos (at4 x b k) h w Hh Hw).
  pose proof (exp_pos delta). field. split; lra.
Qed.

Lemma softmax_shift_invariant_witness :
  at4 (softmax [[[[10; 11]; [12; 13]]]]%R) 0 0 1 0
  = at4 (softmax [[[[0; 1]; [2; 3]]]]%R) 0 0 1 0.
Proof.
  apply (softmax_shift_invariant
           [[[[0; 1]; [2; 3]]]]%R [[[[10; 11]; [12; 13]]]]%R 1 1 2 2 0 0 10%R);
    try lia.
  - split; [split; [reflexivity | repeat constructor] | split; lia].
  - split; [split; [reflexivity | repeat constructor] | split; lia].
  - intros [|[|i']] [|[|j']] Hi Hj; try lia; cbn; lra.
Defined.





(** ** A decoder longer than the encoder *)

Module DecoderLonger.
Import YNetDecoder.

Lemma build_length (es : list nat) :
  forall (ds : list nat) (c : nat),
    length (build c es ds) = Nat.min (length es) (length ds).
Proof.
  induction es as [|e es IH]; intros [|d ds] c; cbn [build length Nat.min];
    try reflexivity.
  rewrite IH. reflexivity.
Qed.

Lemma build_firstn (es : list nat) :
  forall (ds : list nat) (c : nat),
    build c es ds = build c es (firstn (length es) ds).
Proof.
  induction es as [|e es IH]; intros ds c; [reflexivity|].
  destruct ds as [|d ds]; [reflexivity|].
  cbn [length firstn build]. rewrite <- IH. reflexivity.
Qed.

(** The first upsample convolutions are those of the stages that are
    built; the others are left over. *)
Lemma upsample_prefix (ds : list nat) :
  forall (es : list nat) (c : nat),
    es <> [] -> length es <= length ds ->
    firstn (length es)
           (map (fun io => conv3x3 (fst io) (snd io))
                (combine (ups_in c ds) (ups_out c ds)))
    = map fst (build c es ds).
Proof.
  induction ds as [|d ds IH]; intros es c Hes Hlen.
  - destruct es; [contradiction | cbn [length] in Hlen; lia].
  - destruct es as [|e es]; [contradiction|].
    destruct ds as [|d' ds].
    + destruct es; [reflexivity | cbn [length] in Hlen; lia].
    + unfold ups_out. rewrite DecoderFacts.ups_in_cons.
      cbn [map combine build fst snd length firstn]. f_equal.
      destruct es as [|e' es]; [reflexivity|].
      apply (IH (e' :: es) d); [discriminate | cbn [length] in *; lia].
Qed.

Lemma run_stages_firstn_ups (mods : list Sequential) :
  forall (fs : list Shape) (ups : list Conv2d) (i : nat) (x : Shape),
    run_stages i x fs mods ups
    = run_stages i x fs mods (firstn (length mods) ups).
Proof.
  induction mods as [|m mods IH]; intros fs ups i x.
  - destruct fs; reflexivity.
  - destruct fs as [|f fs]; [reflexivity|].
    destruct ups as [|u ups]; [reflexivity|].
    cbn [length firstn run_stages].
    destruct (interpolate 2 x) as [x1|]; [|reflexivity]. cbn [bind].
    destruct (conv2d_forward u x1) as [x2|]; [|reflexivity]. cbn [bind].
    destruct (cat_dim1 i x2 f) as [x3|]; [|reflexivity]. cbn [bind].
    destruct (sequential_forward m x3) as [x4|]; [|reflexivity]. cbn [bind].
    rewrite (IH fs ups (S i) x4). reflexivity.
Qed.

Lemma last_firstn (n : nat) :
  forall (l : list nat) (d d' : nat),
    n < length l -> last (firstn (S n) l) d = nth n l d'.
Proof.
  induction n as [|n IH]; intros l d d' Hn.
  - destruct l as [|a l]; [cbn [length] in Hn; lia | reflexivity].
  - destruct l as [|a l]; [cbn [length] in Hn; lia|].
    cbn [length] in Hn. rewrite firstn_cons, last_cons. cbn [nth].
    apply IH. lia.
Qed.

(** [forward] of a decoder with at least as many decoder channels as
    encoder channels: the stages are those of the encoder channels, and
    the predictor meets the channel count of the last stage built. *)
Lemma forward_longer (enc dec : list nat) (out : nat) (traj : option nat)
      (d : t) (features : list Shape) (b : Shape) (fs : list Shape) :
  Forall (fun c => 0 < c) enc ->
  Forall (fun c => 0 < c) dec ->
  halvable dec ->
  init enc dec out traj = Ok d ->
  length enc <= length dec ->
  rev features = b :: fs ->
  map dimC features = pyramid_channels (adjusted enc traj) ->
  1 <= dimH b -> 1 <= dimW b ->
  forward_skips d features
  = match first_mismatch b fs with
    | None =>
        y <- conv2d_forward (mkConv2d (last dec 0) out 1 1 0)
                            (mkShape (dimN b) (nth (length enc - 1) dec 0)
                                     (dimH b * 2 ^ length fs)
                                     (dimW b * 2 ^ length fs)) ;;
        Ok (y, fs)
    | Some k => Err (CatSizeMismatch k)
    end.
Proof.
  intros Hencpos Hdecpos Hhalv Hinit Hlen Hrev Hch HH HW.
  assert (Hch' : map dimC (b :: fs)
                 = last (adjusted enc traj) 0 :: rev (adjusted enc traj)).
  { rewrite <- Hrev, map_rev, Hch. unfold pyramid_channels. apply rev_unit. }
  injection Hch' as Hb Hfs.
  rewrite DecoderFacts.init_unfold in Hinit.
  pose proof (Forall_rev (DecoderFacts.adjusted_positive enc traj Hencpos))
    as Hrevpos.
  destruct (rev (adjusted enc traj)) as [|c es] eqn:E; [discriminate|].
  pose proof (Forall_inv Hrevpos) as Hc0. cbn beta in Hc0.
  assert (Hc : last (adjusted enc traj) 0 = c).
  { rewrite <- (rev_involutive (adjusted enc traj)), E. apply (last_rev (c :: es)). }
  assert (Hn : length (c :: es) = length enc).
  { rewrite <- E, length_rev. apply DecoderFacts.length_adjusted. }
  assert (Hnf : length (c :: es) = length fs).
  { rewrite <- Hfs. apply length_map. }
  destruct dec as [|d0 dec]; [discriminate|].
  rewrite DecoderFacts.fusion_build in Hinit.
  assert (Hd : d = mk (center_block c)
                      (map (fun io => conv3x3 (fst io) (snd io))
                           (combine (ups_in (c * 2) (d0 :: dec))
                                    (ups_out (c * 2) (d0 :: dec))))
                      (map snd (build (c * 2) (c :: es) (d0 :: dec)))
                      (mkConv2d (last (d0 :: dec) 0) out 1 1 0))
    by congruence.
  subst d. clear Hinit.
  unfold forward_skips. rewrite Hrev.
  cbn [center decoder upsample_conv predictor].
  rewrite DecoderFacts.center_block_forward by (try assumption; congruence).
  cbn [bind].
  rewrite run_stages_firstn_ups, length_map, build_length.
  replace (Nat.min (length (c :: es)) (length (d0 :: dec)))
    with (length (c :: es)) by lia.
  rewrite (upsample_prefix (d0 :: dec) (c :: es) (c * 2))
    by (try discriminate; lia).
  rewrite (build_firstn (c :: es) (d0 :: dec)).
  assert (Hdn : length (firstn (length (c :: es)) (d0 :: dec)) = length fs).
  { rewrite length_firstn. lia. }
  rewrite (DecoderFacts.run_build fs (c :: es) _ (c * 2) _ 0
             (DecoderFacts.Forall_firstn _ _ _ Hdecpos)
             (DecoderFacts.halvable_from (c * 2) _ ltac:(lia)
                (DecoderFacts.halvable_firstn _ _ Hhalv))
             Hnf Hdn Hfs)
    by (cbn [dimC dimH dimW]; auto).
  rewrite (DecoderFacts.first_mismatch_ext fs
             (mkShape (dimN b) (c * 2) (dimH b) (dimW b)) b) by reflexivity.
  destruct (first_mismatch b fs) as [k|]; [reflexivity|].
  cbn [bind fst snd dimN dimH dimW].
  replace (last (firstn (length (c :: es)) (d0 :: dec)) (c * 2))
    with (nth (length enc - 1) (d0 :: dec) 0); [reflexivity|].
  symmetry. rewrite Hn.
  replace (length enc) with (S (length enc - 1)) at 1
    by (cbn [length] in Hn; lia).
  apply last_firstn. cbn [length] in *. lia.
Qed.

End DecoderLonger.

(** X18.  A decoder over valid channel lists with at least as many
    decoder channels as encoder channels, every decoder channel but the
    last at least 2 and a positive [output_len], on a pyramid of matching
    shapes: it runs one stage per encoder channel,
    up to the finest pyramid entry, and then the predictor, built for the
    last decoder channel, meets the channel count of the last stage that
    was built.  When the two are equal the output has [output_len]
    channels at the finest resolution; otherwise the predictor raises a
    channel mismatch, at the first forward pass and not in the
    constructor. *)
Theorem decoder_longer_than_encoder :
  forall (enc dec : list nat) (out : nat) (traj : option nat)
         (features : list Shape),
    valid_channels enc -> valid_channels dec ->
    halvable dec -> 0 < out ->
    length enc <= length dec ->
    matching_pyramid (adjusted enc traj) features ->
    exists d : YNetDecoder.t,
      YNetDecoder.init enc dec out traj = Ok d
      /\ (nth (length enc - 1) dec 0 = last dec 0 ->
          exists y : Shape,
            YNetDecoder.forward d features = Ok y
            /\ dimC y = out
            /\ dimH y = dimH (hd y features) /\ dimW y = dimW (hd y features))
      /\ (nth (length enc - 1) dec 0 <> last dec 0 ->
          YNetDecoder.forward d features
          = Err (ConvChannelMismatch (last dec 0) (nth (length enc - 1) dec 0))).
Proof.
  intros enc dec out traj features [Henc Hencpos] [Hdec Hdecpos] Hhalv Hout
         Hlen [Hch Hhalf].
  destruct (DecoderFacts.decoder_init_ok enc dec out traj Henc Hdec) as (d & Hd & _).
  destruct (rev features) as [|b fs] eqn:Hrev.
  { apply (f_equal (@rev Shape)) in Hrev. rewrite rev_involutive in Hrev.
    subst features. contradiction. }
  destruct (DecoderFacts.halves_down_fits features Hhalf b fs Hrev)
    as (Hnone & HbH & HbW).
  pose proof (DecoderLonger.forward_longer enc dec out traj d features b fs
                Hencpos Hdecpos Hhalv Hd Hlen Hrev Hch HbH HbW) as Hfwd.
  rewrite Hnone in Hfwd.
  destruct (DecoderFacts.first_mismatch_none_last fs b Hnone) as (_ & HlH & HlW).
  assert (Hhd : forall y, hd y features = last fs b).
  { intros y. rewrite <- (last_rev features y), Hrev. apply last_cons. }
  assert (Hp : 1 <= 2 ^ length fs) by apply EncoderCases.pow2_pos.
  exists d. split; [exact Hd|]. split.
  - intros Heq.
    rewrite conv1x1_forward in Hfwd by (cbn [dimC dimH dimW]; try nia; exact Heq).
    cbn [bind dimN dimH dimW] in Hfwd.
    eexists. split; [unfold YNetDecoder.forward; rewrite Hfwd; reflexivity|].
    rewrite Hhd, HlH, HlW. cbn [dimC dimH dimW]. auto.
  - intros Hne. unfold YNetDecoder.forward. rewrite Hfwd.
    unfold conv2d_forward. cbn [in_channels out_channels dimC].
    destruct (Nat.eqb_spec out 0); [lia|].
    destruct (Nat.eqb_spec (nth (length enc - 1) dec 0) (last dec 0));
      [contradiction | reflexivity].
Qed.

Lemma decoder_longer_than_encoder_witness :
  exists d : YNetDecoder.t,
    YNetDecoder.init [4; 8] [8; 6; 5] 3 None = Ok d
    /\ YNetDecoder.forward d [mkShape 1 4 8 8; mkShape 1 8 4 4; mkShape 1 8 2 2]
       = Err (ConvChannelMismatch 5 6).
Proof.
  assert (Hm : matching_pyramid (adjusted [4; 8] None)
                 [mkShape 1 4 8 8; mkShape 1 8 4 4; mkShape 1 8 2 2]).
  { split; [reflexivity|]. simpl. repeat split; lia. }
  assert (He : valid_channels [4; 8])
    by (split; [discriminate | repeat constructor]).
  assert (Hv : valid_channels [8; 6; 5])
    by (split; [discriminate | repeat constructor]).
  assert (Hh : halvable [8; 6; 5]) by (repeat constructor).
  assert (Ho : 0 < 3) by lia.
  destruct (decoder_longer_than_encoder [4; 8] [8; 6; 5] 3 None _
              He Hv Hh Ho ltac:(cbn; lia) Hm) as (d & Hd & _ & Hbad).
  exists d. split; [exact Hd|]. apply Hbad. discriminate.
Defined.

(** ** Convolutions without output channels *)

(** X19.  A predictor without output channels: with [output_len = 0] the
    constructor still builds the decoder (for valid channel lists with at
    least as many decoder channels as encoder channels, every decoder
    channel but the last at least 2), and [forward], on a pyramid of
    matching shapes, runs every stage and then raises in the predictor,
    whose weight has no output channel. *)
Theorem decoder_without_output_channels :
  forall (enc dec : list nat) (traj : option nat) (features : list Shape),
    valid_channels enc -> valid_channels dec ->
    halvable dec ->
    length enc <= length dec ->
    matching_pyramid (adjusted enc traj) features ->
    exists d : YNetDecoder.t,
      YNetDecoder.init enc dec 0 traj = Ok d
      /\ YNetDecoder.forward d features = Err ConvNoOutputChannels.
Proof.
  intros enc dec traj features [Henc Hencpos] [Hdec Hdecpos] Hhalv
         Hlen [Hch Hhalf].
  destruct (DecoderFacts.decoder_init_ok enc dec 0 traj Henc Hdec) as (d & Hd & _).
  destruct (rev features) as [|b fs] eqn:Hrev.
  { apply (f_equal (@rev Shape)) in Hrev. rewrite rev_involutive in Hrev.
    subst features. contradiction. }
  destruct (DecoderFacts.halves_down_fits features Hhalf b fs Hrev)
    as (Hnone & HbH & HbW).
  pose proof (DecoderLonger.forward_longer enc dec 0 traj d features b fs
                Hencpos Hdecpos Hhalv Hd Hlen Hrev Hch HbH HbW) as Hfwd.
  rewrite Hnone in Hfwd.
  exists d. split; [exact Hd|].
  unfold YNetDecoder.forward. rewrite Hfwd. reflexivity.
Qed.

Lemma decoder_without_output_channels_witness :
  exists d : YNetDecoder.t,
    YNetDecoder.init [4; 8] [8; 4] 0 None = Ok d
    /\ YNetDecoder.forward d [mkShape 1 4 8 8; mkShape 1 8 4 4; mkShape 1 8 2 2]
       = Err ConvNoOutputChannels.
Proof.
  assert (He : valid_channels [4; 8])
    by (split; [discriminate | repeat constructor]).
  assert (Hv : valid_channels [8; 4])
    by (split; [discriminate | repeat constructor]).
  assert (Hh : halvable [8; 4]) by (repeat constructor).
  assert (Hm : matching_pyramid (adjusted [4; 8] None)
                 [mkShape 1 4 8 8; mkShape 1 8 4 4; mkShape 1 8 2 2]).
  { split; [reflexivity|]. simpl. repeat split; lia. }
  exact (decoder_without_output_channels [4; 8] [8; 4] None _
           He Hv Hh ltac:(cbn; lia) Hm).
Defined.

(** X20.  A decoder channel of 1 that is not the last one: the
    constructor accepts it and builds the upsample convolution of the
    next stage with [1 // 2 = 0] output channels; on a pyramid of
    matching shapes [forward] runs the first stage and raises in that
    convolution, whatever the other decoder channels are. *)
Theorem decoder_channel_of_one_raises :
  forall (enc : list nat) (d1 : nat) (rest : list nat) (out : nat)
         (traj : option nat) (features : list Shape),
    valid_channels enc ->
    2 <= length enc ->
    matching_pyramid (adjusted enc traj) features ->
    exists d : YNetDecoder.t,
      YNetDecoder.init enc (1 :: d1 :: rest) out traj = Ok d
      /\ YNetDecoder.forward d features = Err ConvNoOutputChannels.
Proof.
  intros enc d1 rest out traj features [Henc Hencpos] Hlen [Hch Hhalf].
  destruct (DecoderFacts.decoder_init_ok enc (1 :: d1 :: rest) out traj Henc
              ltac:(discriminate)) as (d & Hd & _).
  exists d. split; [exact Hd|].
  destruct (rev features) as [|b fs] eqn:Hrev.
  { apply (f_equal (@rev Shape)) in Hrev. rewrite rev_involutive in Hrev.
    subst features. contradiction. }
  destruct (DecoderFacts.halves_down_fits features Hhalf b fs Hrev)
    as (Hnone & HbH & HbW).
  assert (Hch' : map dimC (b :: fs)
                 = last (adjusted enc traj) 0 :: rev (adjusted enc traj)).
  { rewrite <- Hrev, map_rev, Hch. unfold pyramid_channels. apply rev_unit. }
  injection Hch' as Hb Hfs.
  rewrite DecoderFacts.init_unfold in Hd.
  pose proof (Forall_rev (DecoderFacts.adjusted_positive enc traj Hencpos))
    as Hrevpos.
  assert (Hn : length (rev (adjusted enc traj)) = length enc)
    by (rewrite length_rev; apply DecoderFacts.length_adjusted).
  destruct (rev (adjusted enc traj)) as [|c es] eqn:E; [discriminate|].
  pose proof (Forall_inv Hrevpos) as Hc0. cbn beta in Hc0.
  assert (Hc : last (adjusted enc traj) 0 = c).
  { rewrite <- (rev_involutive (adjusted enc traj)), E. apply (last_rev (c :: es)). }
  destruct es as [|e1 es]; [cbn [length] in Hn; lia|].
  destruct fs as [|f1 [|f2 fs]]; try discriminate.
  injection Hfs as Hf1 Hf2 Hfs.
  assert (Hfit : fits b f1 = true).
  { cbn [first_mismatch] in Hnone. destruct (fits b f1); [reflexivity|discriminate]. }
  assert (Hdd : d = YNetDecoder.mk
                      (YNetDecoder.center_block c)
                      (map (fun io => conv3x3 (fst io) (snd io))
                           (combine (ups_in (c * 2) (1 :: d1 :: rest))
                                    (ups_out (c * 2) (1 :: d1 :: rest))))
                      (map (fun io => YNetDecoder.fusion_block (fst io) (snd io))
                           (combine (map (fun ed => fst ed + snd ed)
                                         (combine (c :: e1 :: es)
                                                  (ups_out (c * 2) (1 :: d1 :: rest))))
                                    (1 :: d1 :: rest)))
                      (mkConv2d (last (1 :: d1 :: rest) 0) out 1 1 0))
    by congruence.
  subst d. clear Hd.
  unfold YNetDecoder.forward, YNetDecoder.forward_skips. rewrite Hrev.
  cbn [YNetDecoder.center YNetDecoder.decoder YNetDecoder.upsample_conv].
  rewrite DecoderFacts.center_block_forward by (try assumption; congruence).
  cbn [bind]. unfold ups_out, ups_in.
  change (removelast (1 :: d1 :: rest)) with (1 :: removelast (d1 :: rest)).
  cbn [app map combine fst snd YNetDecoder.run_stages].
  rewrite Nat.div_mul by discriminate.
  unfold interpolate at 1. cbn [dimN dimC dimH dimW].
  destruct (Nat.eqb_spec (dimH b) 0); [lia|].
  destruct (Nat.eqb_spec (dimW b) 0); [lia|]. cbn [orb bind].
  rewrite conv3x3_forward by (cbn [dimC dimH dimW]; lia).
  cbn [bind dimN dimH dimW].
  rewrite (DecoderFacts.cat_dim1_fits 0 _
             (mkShape (dimN b) (c * 2) (dimH b) (dimW b)) f1) by reflexivity.
  rewrite (DecoderFacts.fits_ext _ b f1) by reflexivity.
  rewrite Hfit. cbn [bind dimC].
  rewrite DecoderFacts.fusion_block_forward by (cbn [dimC dimH dimW]; lia).
  cbn [bind dimN dimH dimW].
  unfold interpolate at 1. cbn [dimN dimC dimH dimW].
  destruct (Nat.eqb_spec (dimH b * 2) 0); [lia|].
  destruct (Nat.eqb_spec (dimW b * 2) 0); [lia|]. cbn [orb bind].
  reflexivity.
Qed.

Lemma decoder_channel_of_one_raises_witness :
  exists d : YNetDecoder.t,
    YNetDecoder.init [1; 1] [1; 1] 1 None = Ok d
    /\ YNetDecoder.forward d [mkShape 1 1 8 8; mkShape 1 1 4 4; mkShape 1 1 2 2]
       = Err ConvNoOutputChannels.
Proof.
  assert (He : valid_channels [1; 1])
    by (split; [discriminate | repeat constructor]).
  assert (Hm : matching_pyramid (adjusted [1; 1] None)
                 [mkShape 1 1 8 8; mkShape 1 1 4 4; mkShape 1 1 2 2]).
  { split; [reflexivity|]. simpl. repeat split; lia. }
  exact (decoder_channel_of_one_raises [1; 1] 1 [] 1 None _
           He ltac:(cbn; lia) Hm).
Defined.
